(** * phaser-tiled-hull: tile clusters and their polygon outlines

    A shallow embedding of [src/library/tiled-hull.js].  The library takes a
    tilemap layer, groups the tiles that pass a filter into 4-connected
    clusters, asks hull.js for the outline of every cluster and collapses the
    outline into straight polygon edges.

    Conventions of the embedding.
    - Coordinates are integers ([Z]), as tile positions and the pixel
      corners of tiles are.  [checkIfCollinear] and the walk that is built
      on it compute in exact arithmetic; [checkIfCollinearDouble] and
      [buildPolygonDouble] compute as the engine does, in IEEE 754 doubles.
      The two agree on hulls whose coordinates stay within [2^25] in
      magnitude ([buildPolygonDouble_small]).
    - A JavaScript exception is the value [None] of an [option] result.
    - The recursion of [recursivelySearchNeighbors] consumes call-stack
      frames.  The model takes the number of frames that are available as
      the argument [stack]; running out of frames is the engine's
      [RangeError], again [None]. *)

From stdpp Require Import gmap strings list.
From Stdlib Require Import ZArith Lia.

Local Open Scope Z_scope.

(** ** Geometry: [Phaser.Line] *)

(** hull.js works on points written as two-element arrays [[x, y]]. *)
Definition Point : Type := Z * Z.

(** [Phaser.Line] keeps a [start] and an [end] point. *)
Record Line : Type := mkLine { line_start : Point; line_end : Point }.

(** [new Phaser.Line(x1, y1, x2, y2)]. *)
Definition PhaserLine (x1 y1 x2 y2 : Z) : Line :=
  {| line_start := (x1, y1); line_end := (x2, y2) |}.

(** [new Phaser.Line(...p, ...q)] for two points of a hull. *)
Definition lineBetween (p q : Point) : Line := PhaserLine p.1 p.2 q.1 q.2.

Global Instance Line_eq_dec : EqDecision Line.
Proof. solve_decision. Defined.

(** The direction vector of a line, [end - start]. *)
Definition direction (l : Line) : Z * Z :=
  ((line_end l).1 - (line_start l).1, (line_end l).2 - (line_start l).2).

(** ** The edge reducer: [checkIfCollinear] and [buildPolygons] *)

(** [checkIfCollinear] in exact arithmetic; [checkIfCollinearDouble], further
    down, rounds every difference and product as the engine does. *)
Definition checkIfCollinear (line1 line2 : Line) : bool :=
  let dx1 := (line_end line1).1 - (line_start line1).1 in
  let dy1 := (line_end line1).2 - (line_start line1).2 in
  let dx2 := (line_end line2).1 - (line_start line2).1 in
  let dy2 := (line_end line2).2 - (line_start line2).2 in
  (dx1 * dy2) - (dy1 * dx2) =? 0.

(** The state carried through the walk along a hull: the edges pushed so
    far and [currentEdge]. *)
Definition WalkState : Type := list Line * Line.

(** The body of the [for] loop of [buildPolygons], for one [segment]. *)
Definition walkSegment (st : WalkState) (segment : Line) : WalkState :=
  let '(edges, currentEdge) := st in
  if checkIfCollinear currentEdge segment
  then (edges,
        PhaserLine (line_start currentEdge).1 (line_start currentEdge).2
                   (line_end segment).1 (line_end segment).2)
  else (edges ++ [currentEdge], segment).

(** The [for] loop itself: [i] runs from [1] to [hullPoints.length - 1] and
    the segment of step [i] joins [hullPoints[i - 1]] to [hullPoints[i]]. *)
Definition walkHull (hullPoints : list Point) (currentEdge : Line)
  : option WalkState :=
  foldl (fun (acc : option WalkState) (i : nat) =>
           st ← acc;
           p ← hullPoints !! (i - 1)%nat;
           q ← hullPoints !! i;
           Some (walkSegment st (lineBetween p q)))
        (Some ([], currentEdge))
        (seq 1 (length hullPoints - 1)).

(** The last line segment, from the last point back to the first one. *)
Definition closeHull (st : WalkState) (segment : Line) : list Line :=
  let '(edges, currentEdge) := st in
  if checkIfCollinear currentEdge segment
  then edges ++ [PhaserLine (line_start currentEdge).1 (line_start currentEdge).2
                            (line_end segment).1 (line_end segment).2]
  else edges ++ [currentEdge; segment].

(** [edges.pop()] on the array that is left after [edges.shift()]: the last
    element, when there is one, and the array without it. *)
Definition pop (edges : list Line) : option Line * list Line :=
  (last edges, take (length edges - 1)%nat edges).

(** The merge of the first and the last edge.  [edges[0]] and
    [edges[edges.length - 1]] are read first; on an array of one edge
    [shift] empties it, [pop] gives [undefined] and reading [lastLine.end]
    throws. *)
Definition mergeFirstAndLast (edges : list Line) : option (list Line) :=
  first ← edges !! 0%nat;
  final ← edges !! (length edges - 1)%nat;
  if checkIfCollinear first final
  then match edges with
       | [] => None
       | firstLine :: rest =>
           match pop rest with
           | (Some lastLine, rest') =>
               let combinedLine :=
                 PhaserLine (line_start firstLine).1 (line_start firstLine).2
                            (line_end lastLine).1 (line_end lastLine).2 in
               Some (rest' ++ [combinedLine])
           | (None, _) => None
           end
       end
  else Some edges.

(** The edges as they stand before the merge of the first and last edge. *)
Definition collapseHull (hullPoints : list Point) : option (list Line) :=
  p0 ← hullPoints !! 0%nat;
  p1 ← hullPoints !! 1%nat;
  st ← walkHull hullPoints (lineBetween p0 p1);
  pn ← hullPoints !! (length hullPoints - 1)%nat;
  Some (closeHull st (lineBetween pn p0)).

(** The body of the outer loop of [buildPolygons]: one hull to one polygon. *)
Definition buildPolygon (hullPoints : list Point) : option (list Line) :=
  edges ← collapseHull hullPoints;
  mergeFirstAndLast edges.

Definition buildPolygons (hulls : list (list Point))
  : option (list (list Line)) :=
  mapM buildPolygon hulls.

(** The sum of the direction vectors of a list of edges. *)
Definition sumDirections (edges : list Line) : Z * Z :=
  foldr (fun e acc => ((direction e).1 + acc.1, (direction e).2 + acc.2))
        (0, 0) edges.

(** Position [i] and its cyclic successor in a list of edges. *)
Definition cyclicPair (edges : list Line) (i : nat) : option (Line * Line) :=
  a ← edges !! i;
  b ← edges !! ((i + 1) mod length edges)%nat;
  Some (a, b).

(** Some cyclically adjacent pair of edges passes [checkIfCollinear]. *)
Definition hasCollinearNeighbours (edges : list Line) : bool :=
  existsb (fun i => match cyclicPair edges i with
                    | Some (a, b) => checkIfCollinear a b
                    | None => false
                    end)
          (seq 0 (length edges)).

(** ** The tilemap layer *)

(** What the library reads of a [Phaser.Tile]: its [index], its
    [properties] (kept as the truthiness of every property that is set),
    [collides] and the pixel bounds [left], [top], [right], [bottom]. *)
Record TileData : Type := mkTileData {
  index : Z;
  properties : gmap string bool;
  collides : bool;
  tile_left : Z;
  tile_top : Z;
  tile_right : Z;
  tile_bottom : Z
}.

(** A layer holds one [Tile] object for every position, so that a tile
    object is known by its position [(x, y)] in the layer: two reads of
    one position give the same object and reads of two positions give two
    objects.  [===] on tiles is equality of these records. *)
Record Tile : Type := mkTile {
  tile_x : Z;
  tile_y : Z;
  tile_data : TileData
}.

Global Instance TileData_eq_dec : EqDecision TileData.
Proof. solve_decision. Defined.

Global Instance Tile_eq_dec : EqDecision Tile.
Proof. solve_decision. Defined.

(** [tilemapLayer.map] seen through [tilemapLayer.index]: the size of the
    map and the tile stored at a position, if any. *)
Record TilemapLayer : Type := mkLayer {
  width : Z;
  height : Z;
  cells : Z -> Z -> option TileData
}.

(** Modelled from the spec: Phaser's [Tilemap.getTile], which is not part of
    this repository's source.  The grid accessor gives a cell or nothing, and
    coordinates are zero-based integers in [[0,width) x [0,height)];
    outside of that range there is no tile. *)
Definition getTile (layer : TilemapLayer) (tx ty : Z) : option Tile :=
  if bool_decide (0 <= tx < width layer /\ 0 <= ty < height layer)
  then mkTile tx ty <$> cells layer tx ty
  else None.

(** The filter options of [phaserTiledHull]. *)
Record Options : Type := mkOptions {
  tileIndices : option (list Z);
  tileProperty : option string;
  checkCollide : bool
}.

(** The default value of the options argument. *)
Definition defaultOptions : Options :=
  {| tileIndices := None; tileProperty := None; checkCollide := false |}.

(** ** The cluster finder: [calculateClusters] *)

Section ClusterFinder.

Variable tilemapLayer : TilemapLayer.
Variable options : Options.

(** A string is truthy unless it is empty. *)
Definition truthyString (s : string) : bool :=
  negb (String.eqb s EmptyString).

Definition checkTile (tile : option Tile) : bool :=
  match tile with
  | None => false
  | Some tile =>
      if match tileIndices options with
         | Some indices => bool_decide (index (tile_data tile) ∈ indices)
         | None => false
         end then true
      else if match tileProperty options with
              | Some name =>
                  truthyString name
                  && default false (properties (tile_data tile) !! name)
              | None => false
              end then true
      else if checkCollide options && collides (tile_data tile) then true
      else false
  end.

Fixpoint recursivelySearchNeighbors (stack : nat) (x y : Z)
    (cluster : list Tile) : option (list Tile) :=
  match stack with
  | O => None
  | S stack =>
      match getTile tilemapLayer x y with
      | Some tile =>
          if checkTile (Some tile) && bool_decide (tile ∉ cluster)
          then
            let cluster := cluster ++ [tile] in
            cluster ← recursivelySearchNeighbors stack x (y - 1) cluster;
            cluster ← recursivelySearchNeighbors stack x (y + 1) cluster;
            cluster ← recursivelySearchNeighbors stack (x + 1) y cluster;
            recursivelySearchNeighbors stack (x - 1) y cluster
          else Some cluster
      | None => Some cluster
      end
  end.

Fixpoint findTileInClusters (clusters : list (list Tile)) (searchTile : Tile)
  : option (list Tile) :=
  match clusters with
  | [] => None
  | cluster :: clusters =>
      if existsb (fun tile => bool_decide (searchTile = tile)) cluster
      then Some cluster
      else findTileInClusters clusters searchTile
  end.

(** The body of the two nested loops of [calculateClusters]. *)
Definition visitTile (stack : nat) (clusters : list (list Tile)) (x y : Z)
  : option (list (list Tile)) :=
  match getTile tilemapLayer x y with
  | Some tile =>
      if checkTile (Some tile)
         && negb (bool_decide (is_Some (findTileInClusters clusters tile)))
      then
        cluster ← recursivelySearchNeighbors stack x y [];
        Some (clusters ++ [cluster])
      else Some clusters
  | None => Some clusters
  end.

Definition calculateClusters (stack : nat) : option (list (list Tile)) :=
  foldl (fun acc x =>
           foldl (fun acc y => clusters ← acc; visitTile stack clusters x y)
                 acc (seqZ 0 (height tilemapLayer)))
        (Some []) (seqZ 0 (width tilemapLayer)).

End ClusterFinder.

(** ** The pipeline: [calculateHullPoints] and [phaserTiledHull] *)

Section Pipeline.

(** hull.js and the class [PolygonEdge] are collaborators of this file:
    the hull of a list of points for a concavity, and the edge object built
    from a line and the number of its polygon. *)
Variable hulljs : list Point -> Z -> list Point.
Variable PolygonEdge : Type.
Variable newPolygonEdge : Line -> nat -> PolygonEdge.

Definition calculateHullPoints (clusters : list (list Tile))
  : list (list Point) :=
  (fun cluster =>
     let points :=
       cluster ≫= (fun tile =>
         [ (tile_left (tile_data tile), tile_top (tile_data tile));
           (tile_right (tile_data tile), tile_top (tile_data tile));
           (tile_left (tile_data tile), tile_bottom (tile_data tile));
           (tile_right (tile_data tile), tile_bottom (tile_data tile)) ]) in
     hulljs points 1) <$> clusters.

Definition phaserTiledHull (stack : nat) (tilemapLayer : TilemapLayer)
    (options : Options) : option (list (list PolygonEdge)) :=
  clusters ← calculateClusters tilemapLayer options stack;
  let pointHulls := calculateHullPoints clusters in
  polyHulls ← buildPolygons pointHulls;
  Some (imap (fun (i : nat) (polyHull : list Line) =>
                (fun edge => newPolygonEdge edge i) <$> polyHull)
             polyHulls).

End Pipeline.

(** ** Vocabulary of the statements *)

(** A tile of the layer that passes the filter. *)
Definition matching (layer : TilemapLayer) (opts : Options) (t : Tile) : Prop :=
  getTile layer (tile_x t) (tile_y t) = Some t /\ checkTile opts (Some t) = true.

(** 4-adjacency: north, south, east or west, no diagonals. *)
Definition adjacent (a b : Tile) : Prop :=
  (tile_x b = tile_x a /\ tile_y b = tile_y a - 1) \/
  (tile_x b = tile_x a /\ tile_y b = tile_y a + 1) \/
  (tile_x b = tile_x a + 1 /\ tile_y b = tile_y a) \/
  (tile_x b = tile_x a - 1 /\ tile_y b = tile_y a).

(** A path of adjacent tiles, every one of them taken from [c]. *)
Inductive path_in (c : list Tile) : Tile -> Tile -> Prop :=
| path_here t : t ∈ c -> path_in c t t
| path_step t u v : t ∈ c -> adjacent t u -> path_in c u v -> path_in c t v.

(** Every matching neighbour of a tile of [c] is in [c] too. *)
Definition closed (layer : TilemapLayer) (opts : Options) (c : list Tile) : Prop :=
  forall t n, t ∈ c -> adjacent t n -> matching layer opts n -> n ∈ c.

(** The number of positions of the layer. *)
Definition gridSize (layer : TilemapLayer) : nat :=
  (Z.to_nat (width layer) * Z.to_nat (height layer))%nat.

(** A layer of one row of [n] tiles that all collide. *)
Definition plainTile : TileData :=
  {| index := 1; properties := ∅; collides := true;
     tile_left := 0; tile_top := 0; tile_right := 0; tile_bottom := 0 |}.

Definition rowLayer (n : nat) : TilemapLayer :=
  {| width := Z.of_nat n; height := 1; cells := fun _ _ => Some plainTile |}.

Definition collideOptions : Options :=
  {| tileIndices := None; tileProperty := None; checkCollide := true |}.

(** The corners of an axis-aligned square of side [s] at [(x, y)], in the
    order in which they follow each other around it, and its four sides. *)
Definition square (x y s : Z) : list Point :=
  [(x, y); (x + s, y); (x + s, y + s); (x, y + s)].

Definition squareSides (x y s : Z) : list Line :=
  [ lineBetween (x, y) (x + s, y);
    lineBetween (x + s, y) (x + s, y + s);
    lineBetween (x + s, y + s) (x, y + s);
    lineBetween (x, y + s) (x, y) ].

(** The sides of the same square when it is walked in the other sense. *)
Definition squareSidesBack (x y s : Z) : list Line :=
  [ lineBetween (x, y + s) (x + s, y + s);
    lineBetween (x + s, y + s) (x + s, y);
    lineBetween (x + s, y) (x, y);
    lineBetween (x, y) (x, y + s) ].

(** The outline of the square from [(0, 0)] to [(2, 2)], started in the
    middle of its side from [(0, 0)] to [(2, 0)]. *)
Definition midSideSquare : list Point :=
  [(1, 0); (2, 0); (2, 2); (0, 2); (0, 0)].

(** The positions of the layer, in the order of the two loops of
    [calculateClusters], and the tiles of the layer that pass the filter. *)
Definition positions (layer : TilemapLayer) : list (Z * Z) :=
  cprod (seqZ 0 (width layer)) (seqZ 0 (height layer)).

Definition matchingTiles (layer : TilemapLayer) (opts : Options) : list Tile :=
  filter (fun t => checkTile opts (Some t) = true)
         (omap (fun p => getTile layer p.1 p.2) (positions layer)).

(** The four positions that [recursivelySearchNeighbors] visits from
    [(x, y)], in the order of its four calls. *)
Definition neighbours (x y : Z) : list (Z * Z) :=
  [(x, y - 1); (x, y + 1); (x + 1, y); (x - 1, y)].

(** What a search that started from the positions [seeds] has done when it
    turns [cluster] into [cluster']: it has appended tiles, [added], each
    one once; they match and were not in [cluster]; the matching tiles at the
    seeds are in [cluster']; every matching neighbour of an added tile is in
    [cluster']; and every added tile is joined to the tile of a seed by a
    path of added tiles. *)
Record searched (layer : TilemapLayer) (opts : Options) (seeds : list (Z * Z))
    (cluster cluster' : list Tile) (added : list Tile) : Prop := mkSearched {
  searched_app : cluster' = cluster ++ added;
  searched_nodup : NoDup added;
  searched_new : forall t, t ∈ added -> matching layer opts t /\ t ∉ cluster;
  searched_seed : forall x y t, (x, y) ∈ seeds ->
      getTile layer x y = Some t -> checkTile opts (Some t) = true -> t ∈ cluster';
  searched_closed : forall t n, t ∈ added -> adjacent t n ->
      matching layer opts n -> n ∈ cluster';
  searched_path : forall t, t ∈ added ->
      exists x y s, (x, y) ∈ seeds /\ getTile layer x y = Some s /\ path_in added s t
}.

(** The two loops of [calculateClusters] seen as one loop over a list of
    positions. *)
Definition scan (layer : TilemapLayer) (opts : Options) (stack : nat)
    (ps : list (Z * Z)) (acc : option (list (list Tile)))
  : option (list (list Tile)) :=
  foldl (fun acc p => clusters ← acc; visitTile layer opts stack clusters p.1 p.2)
        acc ps.

(** The state of [clusters] once the positions [visited] have been
    visited: no tile is listed twice, only matching tiles are listed, every
    cluster is closed and connected, and the matching tiles of the visited
    positions are listed. *)
Record clustered (layer : TilemapLayer) (opts : Options)
    (visited : list (Z * Z)) (clusters : list (list Tile)) : Prop := mkClustered {
  clustered_nodup : NoDup (mjoin clusters);
  clustered_matching : forall t, t ∈ mjoin clusters -> matching layer opts t;
  clustered_closed : forall c, c ∈ clusters -> closed layer opts c;
  clustered_connected : forall c a b, c ∈ clusters -> a ∈ c -> b ∈ c ->
      path_in c a b;
  clustered_visited : forall x y t, (x, y) ∈ visited ->
      getTile layer x y = Some t -> checkTile opts (Some t) = true ->
      t ∈ mjoin clusters
}.

(** A layer of three columns and three rows whose middle column is empty,
    as are the bottom of the left column and the top of the right column:

<<
      x = 0 1 2
  y = 0   # . .
  y = 1   # . #
  y = 2   . . #
>> *)
Definition sampleLayer : TilemapLayer :=
  {| width := 3; height := 3;
     cells := fun x y =>
       if bool_decide (x = 1 \/ (x = 0 /\ y = 2) \/ (x = 2 /\ y = 0))
       then None else Some plainTile |}.

(** The line segments between the consecutive points of a list, without the
    closing segment. *)
Definition segments (pts : list Point) : list Line :=
  zip_with lineBetween pts (tail pts).

(** The walk from a state along the segments of a list of points. *)
Definition walkAlong (st : WalkState) (pts : list Point) : WalkState :=
  foldl walkSegment st (segments pts).

(** Sum and difference of vectors. *)
Definition vadd (u v : Z * Z) : Z * Z := (u.1 + v.1, u.2 + v.2).
Definition vsub (u v : Z * Z) : Z * Z := (u.1 - v.1, u.2 - v.2).

(** The edges pushed so far and the current edge lead from [p0] to [q]. *)
Definition leads (p0 q : Point) (st : WalkState) : Prop :=
  line_end st.2 = q /\
  vadd (sumDirections st.1) (direction st.2) = vsub q p0.

(** The first of a list of edges starts at [p0]. *)
Definition startsAt (p0 : Point) (edges : list Line) : Prop :=
  exists first rest, edges = first :: rest /\ line_start first = p0.

(** ** Vocabulary of the further properties *)

(** Every edge of a list ends where the next one starts. *)
Fixpoint chained (edges : list Line) : Prop :=
  match edges with
  | a :: (b :: _) as rest => line_end a = line_start b /\ chained rest
  | _ => True
  end.



(** Both ends of an edge are points of the hull [h]. *)
Definition onHull (h : list Point) (e : Line) : Prop :=
  line_start e ∈ h /\ line_end e ∈ h.

(** The cross product of two vectors. *)
Definition cross (u v : Z * Z) : Z := u.1 * v.2 - u.2 * v.1.

(** The points that [calculateHullPoints] collects for one cluster. *)
Definition cornerPoints (cluster : list Tile) : list Point :=
  cluster ≫= (fun tile =>
    [ (tile_left (tile_data tile), tile_top (tile_data tile));
      (tile_right (tile_data tile), tile_top (tile_data tile));
      (tile_left (tile_data tile), tile_bottom (tile_data tile));
      (tile_right (tile_data tile), tile_bottom (tile_data tile)) ]).

(** The position of the first tile of every cluster. *)
Definition startPositions (clusters : list (list Tile)) : list (Z * Z) :=
  omap (fun cluster => (fun t => (tile_x t, tile_y t)) <$> head cluster) clusters.

(** A layer of three columns and three rows with one tile, in the middle,
    which covers the pixels from [(32, 32)] to [(64, 64)]. *)
Definition middleTile : TileData :=
  {| index := 7; properties := ∅; collides := true;
     tile_left := 32; tile_top := 32; tile_right := 64; tile_bottom := 64 |}.

Definition middleLayer : TilemapLayer :=
  {| width := 3; height := 3;
     cells := fun x y =>
       if bool_decide (x = 1 /\ y = 1) then Some middleTile else None |}.

(** A stand-in for hull.js that answers with the outline of the square from
    [(32, 32)] to [(64, 64)], whatever it is given. *)
Definition middleHull (points : list Point) (concavity : Z) : list Point :=
  square 32 32 32.

(** The dot product of two vectors. *)
Definition dot (u v : Z * Z) : Z := u.1 * v.1 + u.2 * v.2.

(** The point [m] lies on the stretch from [a] to [b], strictly between
    the two: the way from [a] to [m] and the way from [m] to [b] have the
    same direction. *)
Definition between (a m b : Point) : Prop :=
  cross (vsub m a) (vsub b m) = 0 /\ 0 < dot (vsub m a) (vsub b m).

(** ** The arithmetic of the engine: IEEE 754 double precision

    JavaScript numbers are doubles.  An integer of magnitude at most
    [2^53] is held exactly; the result of a subtraction or a product of
    two such numbers is the exact result rounded to 53 significant bits, to
    the nearest value and to the even one of two nearest values, and it is
    [Infinity] (or [-Infinity]) when the rounded magnitude reaches [2^1024].
    The definitions below follow the code on coordinates that are integers,
    where every intermediate value is an integer too. *)

(** The double nearest to the integer [z], or [None] for an infinity. *)
Definition roundDouble (z : Z) : option Z :=
  if Z.abs z <=? 2 ^ 53 then Some z
  else
    let e := Z.log2 (Z.abs z) - 52 in
    let q := Z.abs z / 2 ^ e in
    let r := Z.abs z mod 2 ^ e in
    let half := 2 ^ (e - 1) in
    let q' := if r <? half then q
              else if half <? r then q + 1
              else if Z.even q then q else q + 1 in
    if q' * 2 ^ e <? 2 ^ 1024 then Some (Z.sgn z * (q' * 2 ^ e)) else None.

(** [a - b] and [a * b] on doubles; [None] stands for an infinity or for
    [NaN]: once one of them has come up, every later difference or product
    is an infinity or [NaN] again. *)
Definition subDouble (a b : option Z) : option Z :=
  a ← a; b ← b; roundDouble (a - b).

Definition mulDouble (a b : option Z) : option Z :=
  a ← a; b ← b; roundDouble (a * b).

(** [checkIfCollinear] as the engine computes it.  An infinity and [NaN]
    are not [=== 0]. *)
Definition checkIfCollinearDouble (line1 line2 : Line) : bool :=
  let dx1 := subDouble (Some (line_end line1).1) (Some (line_start line1).1) in
  let dy1 := subDouble (Some (line_end line1).2) (Some (line_start line1).2) in
  let dx2 := subDouble (Some (line_end line2).1) (Some (line_start line2).1) in
  let dy2 := subDouble (Some (line_end line2).2) (Some (line_start line2).2) in
  match subDouble (mulDouble dx1 dy2) (mulDouble dy1 dx2) with
  | Some c => c =? 0
  | None => false
  end.

(** [buildPolygons] with the test of collinearity as a parameter: the same
    code as [walkSegment], [walkHull], [closeHull], [mergeFirstAndLast],
    [collapseHull] and [buildPolygon] above, which are the instance for
    [checkIfCollinear]. *)
Section WalkWith.

Variable collinear : Line -> Line -> bool.

Definition walkSegmentWith (st : WalkState) (segment : Line) : WalkState :=
  let '(edges, currentEdge) := st in
  if collinear currentEdge segment
  then (edges,
        PhaserLine (line_start currentEdge).1 (line_start currentEdge).2
                   (line_end segment).1 (line_end segment).2)
  else (edges ++ [currentEdge], segment).

Definition walkHullWith (hullPoints : list Point) (currentEdge : Line)
  : option WalkState :=
  foldl (fun (acc : option WalkState) (i : nat) =>
           st ← acc;
           p ← hullPoints !! (i - 1)%nat;
           q ← hullPoints !! i;
           Some (walkSegmentWith st (lineBetween p q)))
        (Some ([], currentEdge))
        (seq 1 (length hullPoints - 1)).

Definition closeHullWith (st : WalkState) (segment : Line) : list Line :=
  let '(edges, currentEdge) := st in
  if collinear currentEdge segment
  then edges ++ [PhaserLine (line_start currentEdge).1 (line_start currentEdge).2
                            (line_end segment).1 (line_end segment).2]
  else edges ++ [currentEdge; segment].

Definition mergeFirstAndLastWith (edges : list Line) : option (list Line) :=
  first ← edges !! 0%nat;
  final ← edges !! (length edges - 1)%nat;
  if collinear first final
  then match edges with
       | [] => None
       | firstLine :: rest =>
           match pop rest with
           | (Some lastLine, rest') =>
               let combinedLine :=
                 PhaserLine (line_start firstLine).1 (line_start firstLine).2
                            (line_end lastLine).1 (line_end lastLine).2 in
               Some (rest' ++ [combinedLine])
           | (None, _) => None
           end
       end
  else Some edges.

Definition collapseHullWith (hullPoints : list Point) : option (list Line) :=
  p0 ← hullPoints !! 0%nat;
  p1 ← hullPoints !! 1%nat;
  st ← walkHullWith hullPoints (lineBetween p0 p1);
  pn ← hullPoints !! (length hullPoints - 1)%nat;
  Some (closeHullWith st (lineBetween pn p0)).

Definition buildPolygonWith (hullPoints : list Point) : option (list Line) :=
  edges ← collapseHullWith hullPoints;
  mergeFirstAndLastWith edges.

End WalkWith.

(** One hull to one polygon, as the engine computes it. *)
Definition buildPolygonDouble (hullPoints : list Point) : option (list Line) :=
  buildPolygonWith checkIfCollinearDouble hullPoints.

(** A point whose coordinates are integers of magnitude at most [2^25]:
    between two such points every difference of coordinates is at most
    [2^26] and every product of two differences at most [2^52]. *)
Definition smallPoint (p : Point) : Prop :=
  Z.abs p.1 <= 2 ^ 25 /\ Z.abs p.2 <= 2 ^ 25.

(** A hull of five points with coordinates below [2^31] whose third point
    lies on the stretch between the second and the fourth. *)
Definition longHull : list Point :=
  [ (0, 0); (164578515, 183386938); (411801001, 458862596);
    (906245973, 1009813912); (-7, 402653184) ].

Definition longHullWithout : list Point :=
  [ (0, 0); (164578515, 183386938);
    (906245973, 1009813912); (-7, 402653184) ].

(** * Facts about the edge reducer *)

Section EdgeReducer.

Implicit Types (l cur seg : Line) (edges : list Line) (p q : Point).

Lemma checkIfCollinear_spec l1 l2 :
  checkIfCollinear l1 l2 = true <->
  (direction l1).1 * (direction l2).2 - (direction l1).2 * (direction l2).1 = 0.
Proof. unfold checkIfCollinear, direction. simpl. apply Z.eqb_eq. Qed.

Lemma checkIfCollinear_zero_r l p : checkIfCollinear l (lineBetween p p) = true.
Proof. apply checkIfCollinear_spec. unfold direction. simpl. lia. Qed.

Lemma checkIfCollinear_zero_l l p : checkIfCollinear (lineBetween p p) l = true.
Proof. apply checkIfCollinear_spec. unfold direction. simpl. lia. Qed.

Lemma checkIfCollinear_refl l : checkIfCollinear l l = true.
Proof. apply checkIfCollinear_spec. lia. Qed.

(** When the merge fires on at least two edges it removes the first and
    the last one and pushes one line, from the start of the first edge to
    the end of the last edge. *)
Lemma mergeFirstAndLast_fires first mid final :
  checkIfCollinear first final = true ->
  mergeFirstAndLast (first :: mid ++ [final]) =
  Some (mid ++ [PhaserLine (line_start first).1 (line_start first).2
                           (line_end final).1 (line_end final).2]).
Proof.
  intros Hc. unfold mergeFirstAndLast, pop. simpl.
  replace (length (mid ++ [final]) - 0)%nat with (S (length mid)) by
    (rewrite length_app; simpl; lia).
  simpl. rewrite (lookup_app_r mid [final]) by lia.
  rewrite Nat.sub_diag. simpl. rewrite Hc.
  rewrite last_snoc. rewrite length_app. simpl.
  replace (length mid + 1 - 1)%nat with (length mid) by lia.
  rewrite take_app_length. reflexivity.
Qed.

Lemma mergeFirstAndLast_idle edges first final :
  edges !! 0%nat = Some first ->
  edges !! (length edges - 1)%nat = Some final ->
  checkIfCollinear first final = false ->
  mergeFirstAndLast edges = Some edges.
Proof.
  intros H0 Hn Hc. unfold mergeFirstAndLast. rewrite H0, Hn. simpl.
  by rewrite Hc.
Qed.

(** Four points whose consecutive sides all turn: the polygon is the list
    of the four sides, in the order of the points. *)
Lemma buildPolygon_corners (a b c d : Point) :
  checkIfCollinear (lineBetween a b) (lineBetween b c) = false ->
  checkIfCollinear (lineBetween b c) (lineBetween c d) = false ->
  checkIfCollinear (lineBetween c d) (lineBetween d a) = false ->
  checkIfCollinear (lineBetween a b) (lineBetween d a) = false ->
  buildPolygon [a; b; c; d] =
  Some [lineBetween a b; lineBetween b c; lineBetween c d; lineBetween d a].
Proof.
  intros H1 H2 H3 H4.
  unfold buildPolygon, collapseHull, walkHull. simpl.
  rewrite checkIfCollinear_refl. simpl.
  fold (lineBetween a b). rewrite H1. simpl. rewrite H2. simpl.
  rewrite H3. simpl.
  by apply mergeFirstAndLast_idle with (lineBetween a b) (lineBetween d a).
Qed.

(** A horizontal and a vertical line that both have a length turn. *)
Lemma checkIfCollinear_axes (x1 x2 y1 y2 u v : Z) :
  x1 <> x2 -> y1 <> y2 ->
  checkIfCollinear (PhaserLine x1 u x2 u) (PhaserLine v y1 v y2) = false /\
  checkIfCollinear (PhaserLine v y1 v y2) (PhaserLine x1 u x2 u) = false.
Proof.
  intros Hx Hy. split; apply not_true_iff_false; rewrite checkIfCollinear_spec;
    unfold direction; simpl; nia.
Qed.

Lemma rotate_perm {A} (k : nat) (l : list A) : rotate k l ≡ₚ l.
Proof. unfold rotate. by rewrite Permutation_app_comm, take_drop. Qed.

End EdgeReducer.

(** ** The walk along a hull *)

Section Walk.

Implicit Types (l cur seg : Line) (edges : list Line) (p q : Point)
  (pts h : list Point) (st : WalkState).

Lemma walkHull_from h st : forall post pre p,
  h = pre ++ p :: post ->
  foldl (fun (acc : option WalkState) (i : nat) =>
           st ← acc;
           p ← h !! (i - 1)%nat;
           q ← h !! i;
           Some (walkSegment st (lineBetween p q)))
        (Some st) (seq (S (length pre)) (length post))
  = Some (walkAlong st (p :: post)).
Proof.
  intros post. revert st.
  induction post as [| q post IH]; intros st pre p Hh; [done |].
  simpl seq. simpl foldl. rewrite Nat.sub_0_r.
  assert (Hp : h !! length pre = Some p).
  { subst h. by rewrite lookup_app_r, Nat.sub_diag by lia. }
  assert (Hq : h !! S (length pre) = Some q).
  { subst h. rewrite lookup_app_r by lia.
    by replace (S (length pre) - length pre)%nat with 1%nat by lia. }
  rewrite Hp, Hq. simpl.
  specialize (IH (walkSegment st (lineBetween p q)) (pre ++ [p]) q).
  rewrite length_app in IH. simpl in IH.
  replace (length pre + 1)%nat with (S (length pre)) in IH by lia.
  rewrite IH; [done |]. subst h. by rewrite <- app_assoc.
Qed.

Lemma walkHull_walkAlong h cur :
  walkHull h cur = Some (walkAlong ([], cur) h).
Proof.
  unfold walkHull. destruct h as [| p post]; [done |].
  replace (length (p :: post) - 1)%nat with (length post) by (simpl; lia).
  by apply (walkHull_from (p :: post) ([], cur) post [] p).
Qed.

Lemma walkSegment_same p q :
  walkSegment ([], lineBetween p q) (lineBetween p q) = ([], lineBetween p q).
Proof. unfold walkSegment. by rewrite checkIfCollinear_refl. Qed.

(** The edges before the merge, for a hull of at least two points. *)
Lemma collapseHull_cons p0 p1 rest :
  collapseHull (p0 :: p1 :: rest) =
  Some (closeHull (walkAlong ([], lineBetween p0 p1) (p1 :: rest))
                  (lineBetween (default p0 (last (p0 :: p1 :: rest))) p0)).
Proof.
  unfold collapseHull. simpl lookup. simpl.
  rewrite walkHull_walkAlong. simpl.
  change (walkAlong ([], lineBetween p0 p1) (p0 :: p1 :: rest))
    with (walkAlong (walkSegment ([], lineBetween p0 p1) (lineBetween p0 p1))
                    (p1 :: rest)).
  rewrite walkSegment_same.
  change (last (p0 :: p1 :: rest)) with (last (p1 :: rest)).
  change (length rest) with (pred (length (p1 :: rest))).
  rewrite <- last_lookup.
  destruct (last (p1 :: rest)) as [pn |] eqn:E; [done |].
  by apply last_None in E.
Qed.

Lemma buildPolygon_short p : buildPolygon [p] = None.
Proof. reflexivity. Qed.

(** *** Every step ends the current edge at the end of its segment *)

Lemma walkSegment_end st seg : line_end (walkSegment st seg).2 = line_end seg.
Proof.
  destruct st as [edges cur]. unfold walkSegment.
  destruct (checkIfCollinear cur seg); simpl; [| done]. by destruct (line_end seg).
Qed.

Lemma walkAlong_cons st p q pts :
  walkAlong st (p :: q :: pts) =
  walkAlong (walkSegment st (lineBetween p q)) (q :: pts).
Proof. reflexivity. Qed.

Lemma walkAlong_end pts : forall st p q,
  last (p :: q :: pts) = Some (line_end (walkAlong st (p :: q :: pts)).2).
Proof.
  induction pts as [| r pts IH]; intros st p q.
  - rewrite walkAlong_cons. unfold walkAlong. simpl.
    rewrite walkSegment_end. simpl. by destruct q.
  - rewrite walkAlong_cons. rewrite <- IH. done.
Qed.

(** *** A repeated point changes nothing *)

Lemma walkSegment_zero st p :
  line_end st.2 = p -> walkSegment st (lineBetween p p) = st.
Proof.
  destruct st as [edges [s e]]. simpl. intros ->. unfold walkSegment.
  rewrite checkIfCollinear_zero_r. simpl. by destruct s, p.
Qed.

Lemma walkAlong_repeat pts : forall st p post,
  (pts = [] -> line_end st.2 = p) ->
  walkAlong st (pts ++ p :: p :: post) = walkAlong st (pts ++ p :: post).
Proof.
  induction pts as [| a pts IH]; intros st p post Hend.
  - simpl. rewrite walkAlong_cons. by rewrite walkSegment_zero by auto.
  - destruct pts as [| b pts].
    + simpl. rewrite !walkAlong_cons.
      rewrite walkSegment_zero; [done |]. rewrite walkSegment_end. by destruct p.
    + change (walkAlong st ((a :: b :: pts) ++ p :: p :: post))
        with (walkAlong (walkSegment st (lineBetween a b)) ((b :: pts) ++ p :: p :: post)).
      by rewrite IH.
Qed.

Lemma last_repeat pts p post :
  last (pts ++ p :: p :: post) = last (pts ++ p :: post).
Proof. rewrite !last_app. reflexivity. Qed.

Lemma collapseHull_repeat_head p q post :
  collapseHull (p :: p :: q :: post) = collapseHull (p :: q :: post).
Proof.
  rewrite !collapseHull_cons. rewrite (walkAlong_cons _ p q post).
  unfold walkSegment at 1. rewrite checkIfCollinear_zero_l.
  by destruct p, q.
Qed.

Lemma collapseHull_repeat_later a pre p post :
  collapseHull (a :: pre ++ p :: p :: post) = collapseHull (a :: pre ++ p :: post).
Proof.
  destruct pre as [| b pre]; simpl app; rewrite !collapseHull_cons.
  - rewrite (walkAlong_repeat [] _ p post) by (by destruct p).
    by rewrite (last_repeat [a] p post
                : last (a :: p :: p :: post) = last (a :: p :: post)).
  - rewrite (walkAlong_repeat (b :: pre) _ p post) by done.
    by rewrite (last_repeat (a :: b :: pre) p post
                : last (a :: b :: pre ++ p :: p :: post)
                  = last (a :: b :: pre ++ p :: post)).
Qed.

Lemma buildPolygon_one_spot p : buildPolygon [p; p] = None.
Proof.
  unfold buildPolygon. rewrite collapseHull_cons.
  unfold walkAlong, closeHull. simpl. rewrite checkIfCollinear_zero_r. simpl.
  unfold mergeFirstAndLast. simpl. by rewrite checkIfCollinear_refl.
Qed.

(** A point that is repeated in a hull leaves its polygon as it is. *)
Lemma buildPolygon_repeat pre p post :
  buildPolygon (pre ++ p :: p :: post) = buildPolygon (pre ++ p :: post).
Proof.
  unfold buildPolygon. destruct pre as [| a pre].
  - destruct post as [| q post].
    + apply buildPolygon_one_spot.
    + simpl app. by rewrite collapseHull_repeat_head.
  - simpl app. by rewrite collapseHull_repeat_later.
Qed.

(** *** A hull that ends on its first point *)

Lemma segments_snoc pts : forall p q,
  segments ((p :: pts) ++ [q]) =
  segments (p :: pts) ++ [lineBetween (default p (last (p :: pts))) q].
Proof.
  induction pts as [| r pts IH]; intros p q; [done |].
  change (segments ((p :: r :: pts) ++ [q]))
    with (lineBetween p r :: segments ((r :: pts) ++ [q])).
  rewrite IH. simpl.
  change (last (p :: r :: pts)) with (last (r :: pts)).
  destruct (last (r :: pts)) eqn:E; [done |]. by apply last_None in E.
Qed.

Lemma closeHull_after_return st p q :
  closeHull (walkSegment st (lineBetween p q)) (lineBetween q q) =
  closeHull st (lineBetween p q).
Proof.
  destruct st as [edges cur]. unfold walkSegment, closeHull.
  destruct (checkIfCollinear cur (lineBetween p q)).
  - rewrite checkIfCollinear_zero_r. by destruct q.
  - rewrite checkIfCollinear_zero_r. rewrite <- app_assoc. by destruct p, q.
Qed.

Lemma buildPolygon_closed_hull p0 rest :
  buildPolygon (p0 :: rest ++ [p0]) = buildPolygon (p0 :: rest).
Proof.
  unfold buildPolygon. destruct rest as [| p1 rest].
  - apply buildPolygon_one_spot.
  - simpl app. rewrite !collapseHull_cons.
    unfold walkAlong at 1.
    rewrite (segments_snoc rest p1 p0
             : segments (p1 :: rest ++ [p0]) = _).
    rewrite foldl_app. simpl foldl.
    fold (walkAlong ([], lineBetween p0 p1) (p1 :: rest)).
    change (last (p0 :: p1 :: rest ++ [p0])) with (last ((p1 :: rest) ++ [p0])).
    rewrite last_snoc. simpl default.
    rewrite closeHull_after_return.
    change (last (p0 :: p1 :: rest)) with (last (p1 :: rest)).
    destruct (last (p1 :: rest)) eqn:E; [done |]. by apply last_None in E.
Qed.


(** *** The edges before the merge close up *)

Lemma sumDirections_app edges1 edges2 :
  sumDirections (edges1 ++ edges2) =
  vadd (sumDirections edges1) (sumDirections edges2).
Proof.
  induction edges1 as [| e edges1 IH]; simpl.
  - by destruct (sumDirections edges2).
  - rewrite IH. unfold vadd. simpl. f_equal; lia.
Qed.

Lemma leads_walkSegment p0 q r st :
  leads p0 q st -> leads p0 r (walkSegment st (lineBetween q r)).
Proof.
  destruct st as [edges [s e]]. unfold leads. simpl. intros [-> Hsum].
  unfold walkSegment. destruct (checkIfCollinear _ _); simpl.
  - split; [by destruct r |]. revert Hsum. unfold vadd, vsub, direction. simpl.
    intros [= H1 H2]. f_equal; lia.
  - split; [by destruct r |]. rewrite sumDirections_app. revert Hsum.
    unfold vadd, vsub, direction. simpl. intros [= H1 H2]. f_equal; lia.
Qed.

Lemma leads_walkAlong p0 pts : forall q st,
  leads p0 q st ->
  leads p0 (default q (last (q :: pts))) (walkAlong st (q :: pts)).
Proof.
  induction pts as [| r pts IH]; intros q st Hst; [done |].
  rewrite walkAlong_cons. change (last (q :: r :: pts)) with (last (r :: pts)).
  pose proof (IH r _ (leads_walkSegment p0 q r st Hst)) as Hr.
  destruct (last (r :: pts)) eqn:E; [done |]. by apply last_None in E.
Qed.

Lemma leads_closeHull p0 q st :
  leads p0 q st -> sumDirections (closeHull st (lineBetween q p0)) = (0, 0).
Proof.
  destruct st as [edges [s e]]. unfold leads. simpl. intros [-> Hsum].
  unfold closeHull. destruct (checkIfCollinear _ _); rewrite sumDirections_app;
    revert Hsum; unfold vadd, vsub, direction; simpl;
    intros [= H1 H2]; f_equal; lia.
Qed.

Lemma collapseHull_closed h edges :
  collapseHull h = Some edges -> sumDirections edges = (0, 0).
Proof.
  destruct h as [| p0 [| p1 rest]]; [done .. |].
  rewrite collapseHull_cons. intros [= <-].
  change (last (p0 :: p1 :: rest)) with (last (p1 :: rest)).
  replace (default p0 (last (p1 :: rest))) with (default p1 (last (p1 :: rest))).
  2: { destruct (last (p1 :: rest)) eqn:E; [done |]. by apply last_None in E. }
  apply leads_closeHull, leads_walkAlong.
  split; simpl; [by destruct p1 |].
  unfold vadd, vsub, direction. simpl. f_equal; lia.
Qed.

(** *** The first edge starts and the last edge ends at the first point *)

Lemma startsAt_walkSegment p0 st seg :
  startsAt p0 (st.1 ++ [st.2]) ->
  startsAt p0 ((walkSegment st seg).1 ++ [(walkSegment st seg).2]).
Proof.
  destruct st as [edges cur]. simpl. intros (first & rest & E & Hs).
  unfold walkSegment. destruct (checkIfCollinear cur seg); simpl.
  - destruct edges as [| e edges]; simpl in *.
    + injection E as <- <-. eexists _, []. split; [done |]. simpl.
      by destruct (line_start cur).
    + injection E as <- <-. by eexists _, _.
  - rewrite E. by eexists _, _.
Qed.

Lemma startsAt_walkAlong p0 pts : forall st,
  startsAt p0 (st.1 ++ [st.2]) ->
  startsAt p0 ((walkAlong st pts).1 ++ [(walkAlong st pts).2]).
Proof.
  unfold walkAlong. generalize (segments pts) as segs.
  induction segs as [| seg segs IH]; intros st Hst; [done |].
  simpl. by apply IH, startsAt_walkSegment.
Qed.

Lemma closeHull_ends p0 st seg :
  startsAt p0 (st.1 ++ [st.2]) -> line_end seg = p0 ->
  exists first final,
    closeHull st seg !! 0%nat = Some first /\
    last (closeHull st seg) = Some final /\
    line_start first = p0 /\ line_end final = p0.
Proof.
  destruct st as [edges cur]. simpl. intros (first & rest & E & Hs) He.
  unfold closeHull. destruct (checkIfCollinear cur seg).
  - rewrite last_snoc. destruct edges as [| e edges]; simpl in *.
    + injection E as <- <-. eexists _, _. split; [done |]. split; [done |].
      simpl. split; [by destruct (line_start cur) | by destruct (line_end seg)].
    + injection E as <- <-. eexists _, _. split; [done |]. split; [done |].
      simpl. split; [done | by destruct (line_end seg)].
  - rewrite (assoc_L (++) edges [cur] [seg] : edges ++ [cur; seg] = _).
    rewrite last_snoc, E. by eexists _, _.
Qed.

Lemma collapseHull_ends p0 h edges :
  h !! 0%nat = Some p0 -> collapseHull h = Some edges ->
  exists first final,
    edges !! 0%nat = Some first /\ last edges = Some final /\
    line_start first = p0 /\ line_end final = p0.
Proof.
  destruct h as [| p [| p1 rest]]; [done .. |]. intros [= ->].
  rewrite collapseHull_cons. intros [= <-].
  apply closeHull_ends; [| by destruct p0].
  apply startsAt_walkAlong. simpl. eexists _, []. split; [done |]. by destruct p0.
Qed.

(** Whenever the merge fires and does not throw, the line that it pushes
    is the empty line at the first point of the hull. *)
Lemma buildPolygon_merged h p0 edges first final polygon :
  h !! 0%nat = Some p0 -> collapseHull h = Some edges ->
  edges !! 0%nat = Some first -> last edges = Some final ->
  checkIfCollinear first final = true ->
  buildPolygon h = Some polygon ->
  exists mid, edges = first :: mid ++ [final] /\
              polygon = mid ++ [lineBetween p0 p0].
Proof.
  intros Hp0 Hc Hf Hl Hcol. unfold buildPolygon. rewrite Hc. simpl.
  destruct (collapseHull_ends _ _ _ Hp0 Hc) as (f' & l' & Hf' & Hl' & Hs & He).
  assert (f' = first) as -> by congruence. assert (l' = final) as -> by congruence.
  destruct edges as [| e edges]; [done |]. injection Hf as ->.
  destruct edges as [| e edges] using rev_ind.
  - unfold mergeFirstAndLast. simpl. injection Hl as <-. by rewrite Hcol.
  - clear IHedges.
    rewrite (last_snoc e (first :: edges) : last (first :: edges ++ [e]) = _) in Hl.
    injection Hl as ->.
    rewrite mergeFirstAndLast_fires by done. intros [= <-].
    exists edges. split; [done |]. rewrite Hs, He. by destruct p0.
Qed.

(** When the merge does not fire the polygon closes up. *)
Lemma buildPolygon_idle_closed h edges first final :
  collapseHull h = Some edges ->
  edges !! 0%nat = Some first -> last edges = Some final ->
  checkIfCollinear first final = false ->
  buildPolygon h = Some edges /\ sumDirections edges = (0, 0).
Proof.
  intros Hc Hf Hl Hcol. split; [| by eapply collapseHull_closed].
  unfold buildPolygon. rewrite Hc. simpl.
  apply mergeFirstAndLast_idle with first final; try done.
  by rewrite Nat.sub_1_r, <- last_lookup.
Qed.

End Walk.

(** * Facts about the cluster finder *)

#[local] Arguments checkTile : simpl never.
#[local] Arguments getTile : simpl never.

Section ClusterFinderFacts.

Variable layer : TilemapLayer.
Variable opts : Options.

Implicit Types (t s n : Tile) (c cluster : list Tile) (x y : Z).

Lemma getTile_Some x y t :
  getTile layer x y = Some t ->
  tile_x t = x /\ tile_y t = y /\ 0 <= x < width layer /\ 0 <= y < height layer.
Proof.
  unfold getTile. case_bool_decide; [| done].
  destruct (cells layer x y); simpl; [| done].
  intros [= <-]. simpl. lia.
Qed.

Lemma getTile_matching x y t :
  getTile layer x y = Some t -> checkTile opts (Some t) = true ->
  matching layer opts t.
Proof.
  intros Hg Hc. split; [| done].
  destruct (getTile_Some _ _ _ Hg) as (-> & -> & _). done.
Qed.

Lemma matching_position t :
  matching layer opts t -> (tile_x t, tile_y t) ∈ positions layer.
Proof.
  intros [Hg _]. apply getTile_Some in Hg as (_ & _ & Hx & Hy).
  unfold positions. apply list_elem_of_cprod. simpl.
  split; apply elem_of_seqZ; simpl. all: lia.
Qed.

Lemma matching_matchingTiles t :
  matching layer opts t <-> t ∈ matchingTiles layer opts.
Proof.
  unfold matchingTiles. rewrite list_elem_of_filter, list_elem_of_omap. split.
  - intros Hm. split; [apply Hm |].
    exists (tile_x t, tile_y t). split; [by apply matching_position | apply Hm].
  - intros [Hc [[x y] [_ Hg]]]. simpl in Hg. by eapply getTile_matching.
Qed.

Lemma length_omap_le {A B} (f : A -> option B) (l : list A) :
  (length (omap f l) <= length l)%nat.
Proof. induction l as [| a l IH]; csimpl; [lia |]. destruct (f a); csimpl; lia. Qed.

Lemma length_matchingTiles :
  (length (matchingTiles layer opts) <= gridSize layer)%nat.
Proof.
  unfold matchingTiles, gridSize, positions.
  etrans; [apply length_filter |]. etrans; [apply length_omap_le |].
  rewrite list_cprod_list_prod, length_prod, !length_seqZ. lia.
Qed.

(** *** Adjacency and paths *)

Lemma adjacent_sym (a b : Tile) : adjacent a b -> adjacent b a.
Proof. unfold adjacent. lia. Qed.

Lemma adjacent_neighbours (a b : Tile) :
  adjacent a b <-> (tile_x b, tile_y b) ∈ neighbours (tile_x a) (tile_y a).
Proof.
  unfold adjacent, neighbours. rewrite !elem_of_cons, elem_of_nil.
  split.
  - intros [[-> ->] | [[-> ->] | [[-> ->] | [-> ->]]]]; auto.
  - intros [H | [H | [H | [H | []]]]]; injection H as -> ->; lia.
Qed.

Lemma path_in_start c a b : path_in c a b -> a ∈ c.
Proof. by destruct 1. Qed.

Lemma path_in_end c a b : path_in c a b -> b ∈ c.
Proof. induction 1; auto. Qed.

Lemma path_in_mono c c' a b :
  (forall t, t ∈ c -> t ∈ c') -> path_in c a b -> path_in c' a b.
Proof.
  intros Hsub. induction 1 as [t Ht | t u v Ht Ha _ IH].
  - apply path_here; auto.
  - eapply path_step; eauto.
Qed.

Lemma path_in_trans c a b d : path_in c a b -> path_in c b d -> path_in c a d.
Proof.
  induction 1 as [t Ht | t u v Ht Ha _ IH]; [done |].
  intros Hd. eapply path_step; eauto.
Qed.

Lemma path_in_sym c a b : path_in c a b -> path_in c b a.
Proof.
  induction 1 as [t Ht | t u v Ht Ha Hp IH]; [by apply path_here |].
  eapply path_in_trans; [exact IH |].
  eapply path_step; [by eapply path_in_start | by apply adjacent_sym |].
  by apply path_here.
Qed.

(** A closed set of tiles that meets a path of matching tiles holds all of
    the path. *)
Lemma closed_path_back c c' a b :
  closed layer opts c' -> (forall t, t ∈ c -> matching layer opts t) ->
  path_in c a b -> b ∈ c' -> a ∈ c'.
Proof.
  intros Hcl Hm. induction 1 as [t Ht | t u v Ht Ha Hp IH]; [done |].
  intros Hv. apply (Hcl u t); auto using adjacent_sym.
Qed.


(** *** The search from one position *)

Lemma searched_skip x y cluster :
  (forall t, getTile layer x y = Some t -> checkTile opts (Some t) = true ->
             t ∈ cluster) ->
  searched layer opts [(x, y)] cluster cluster [].
Proof.
  intros Hin. split.
  - by rewrite app_nil_r.
  - constructor.
  - intros t Ht. by apply elem_of_nil in Ht.
  - intros x' y' t Hs. apply list_elem_of_singleton in Hs as [= -> ->]. apply Hin.
  - intros t n Ht. by apply elem_of_nil in Ht.
  - intros t Ht. by apply elem_of_nil in Ht.
Qed.

Lemma searched_compose seeds1 seeds2 c c1 c2 a1 a2 :
  searched layer opts seeds1 c c1 a1 ->
  searched layer opts seeds2 c1 c2 a2 ->
  searched layer opts (seeds1 ++ seeds2) c c2 (a1 ++ a2).
Proof.
  intros [E1 N1 W1 S1 C1 P1] [E2 N2 W2 S2 C2 P2]. subst c1 c2. split.
  - by rewrite app_assoc.
  - apply NoDup_app. split; [done |]. split; [| done].
    intros t Ht1 Ht2. apply W2 in Ht2 as [_ Hn]. apply Hn.
    apply elem_of_app. by right.
  - intros t [Ht | Ht]%elem_of_app.
    + by apply W1.
    + apply W2 in Ht as [Hm Hn]. split; [done |].
      intros Hc. apply Hn. apply elem_of_app. by left.
  - intros x y t [Hs | Hs]%elem_of_app Hg Hc.
    + apply elem_of_app. left. by eapply S1.
    + by eapply S2.
  - intros t n [Ht | Ht]%elem_of_app Ha Hm.
    + apply elem_of_app. left. by eapply C1.
    + by eapply C2.
  - intros t [Ht | Ht]%elem_of_app.
    + destruct (P1 t Ht) as (x & y & s & Hs & Hg & Hp).
      exists x, y, s. split; [apply elem_of_app; by left |]. split; [done |].
      eapply path_in_mono; [| exact Hp]. intros u Hu. apply elem_of_app. by left.
    + destruct (P2 t Ht) as (x & y & s & Hs & Hg & Hp).
      exists x, y, s. split; [apply elem_of_app; by right |]. split; [done |].
      eapply path_in_mono; [| exact Hp]. intros u Hu. apply elem_of_app. by right.
Qed.

Lemma searched_visit x y tile cluster cluster' added :
  getTile layer x y = Some tile -> checkTile opts (Some tile) = true ->
  tile ∉ cluster ->
  searched layer opts (neighbours x y) (cluster ++ [tile]) cluster' added ->
  searched layer opts [(x, y)] cluster cluster' (tile :: added).
Proof.
  intros Hg Hc Hn [E N W S C P].
  pose proof (getTile_matching _ _ _ Hg Hc) as Hm.
  destruct (getTile_Some _ _ _ Hg) as (Hx & Hy & _).
  assert (Htile : tile ∈ cluster').
  { subst cluster'. apply elem_of_app. left. apply elem_of_app. right.
    by apply list_elem_of_singleton. }
  split.
  - subst cluster'. by rewrite <- app_assoc.
  - constructor; [| done]. intros Ht. apply W in Ht as [_ Ht]. apply Ht.
    apply elem_of_app. right. by apply list_elem_of_singleton.
  - intros t [-> | Ht]%elem_of_cons; [done |].
    apply W in Ht as [Hmt Hnt]. split; [done |].
    intros Hin. apply Hnt. apply elem_of_app. by left.
  - intros x' y' t Hs Hg' _. apply list_elem_of_singleton in Hs as [= -> ->].
    congruence.
  - intros t n [-> | Ht]%elem_of_cons Ha Hmn.
    + apply adjacent_neighbours in Ha. rewrite Hx, Hy in Ha.
      destruct Hmn as [Hgn Hcn]. by eapply S.
    + by eapply C.
  - intros t [-> | Ht]%elem_of_cons.
    + exists x, y, tile. split; [by apply list_elem_of_singleton |]. split; [done |].
      apply path_here. by left.
    + destruct (P t Ht) as (x' & y' & s & Hs & Hgs & Hp).
      exists x, y, tile. split; [by apply list_elem_of_singleton |]. split; [done |].
      apply path_step with s; [by left | |].
      * apply adjacent_neighbours. rewrite Hx, Hy.
        by destruct (getTile_Some _ _ _ Hgs) as (-> & -> & _).
      * eapply path_in_mono; [| exact Hp]. intros u Hu. by right.
Qed.

Lemma recursivelySearchNeighbors_searched stack : forall x y cluster cluster',
  recursivelySearchNeighbors layer opts stack x y cluster = Some cluster' ->
  exists added, searched layer opts [(x, y)] cluster cluster' added.
Proof.
  induction stack as [| stack IH]; intros x y cluster cluster'; simpl; [done |].
  destruct (getTile layer x y) as [tile |] eqn:Hg.
  2: { intros [= <-]. exists []. apply searched_skip. intros t Ht. congruence. }
  destruct (checkTile opts (Some tile)) eqn:Hc; simpl.
  2: { intros [= <-]. exists []. apply searched_skip. intros t Ht. congruence. }
  case_bool_decide as Hn; simpl.
  2: { intros [= <-]. exists []. apply searched_skip. intros t Ht _.
       by assert (t = tile) as -> by congruence. }
  destruct (recursivelySearchNeighbors _ _ stack x (y - 1) _) as [c1 |] eqn:E1;
    simpl; [| done].
  destruct (recursivelySearchNeighbors _ _ stack x (y + 1) _) as [c2 |] eqn:E2;
    simpl; [| done].
  destruct (recursivelySearchNeighbors _ _ stack (x + 1) y _) as [c3 |] eqn:E3;
    simpl; [| done].
  intros E4.
  apply IH in E1 as [a1 H1]. apply IH in E2 as [a2 H2].
  apply IH in E3 as [a3 H3]. apply IH in E4 as [a4 H4].
  exists (tile :: a1 ++ a2 ++ a3 ++ a4).
  apply searched_visit; [done .. |].
  apply (searched_compose _ _ _ _ _ _ _ H1).
  apply (searched_compose _ _ _ _ _ _ _ H2).
  apply (searched_compose _ _ _ _ _ _ _ H3). exact H4.
Qed.


(** *** The depth of the recursion *)

Lemma searched_keeps seeds c c' a :
  searched layer opts seeds c c' a ->
  NoDup c -> (forall t, t ∈ c -> matching layer opts t) ->
  NoDup c' /\ (forall t, t ∈ c' -> matching layer opts t) /\
  (length c <= length c')%nat.
Proof.
  intros [E N W _ _ _] Hnd Hm. subst c'. split; [| split].
  - apply NoDup_app. split; [done |]. split; [| done].
    intros t Ht Ha. by apply W in Ha as [_ Hn].
  - intros t [Ht | Ht]%elem_of_app; [by apply Hm | by apply W].
  - rewrite length_app. lia.
Qed.

Lemma cluster_length_le c :
  NoDup c -> (forall t, t ∈ c -> matching layer opts t) ->
  (length c <= length (matchingTiles layer opts))%nat.
Proof.
  intros Hnd Hm. apply submseteq_length, NoDup_submseteq; [done |].
  intros t Ht. by apply matching_matchingTiles, Hm.
Qed.

(** The search returns when the free frames outnumber the matching tiles
    that are not in the cluster yet. *)
Lemma recursivelySearchNeighbors_returns stack : forall x y cluster,
  NoDup cluster -> (forall t, t ∈ cluster -> matching layer opts t) ->
  (length (matchingTiles layer opts) < stack + length cluster)%nat ->
  is_Some (recursivelySearchNeighbors layer opts stack x y cluster).
Proof.
  induction stack as [| stack IH]; intros x y cluster Hnd Hm Hlen.
  { pose proof (cluster_length_le _ Hnd Hm). lia. }
  simpl. destruct (getTile layer x y) as [tile |] eqn:Hg; [| eauto].
  destruct (checkTile opts (Some tile)) eqn:Hc; simpl; [| eauto].
  case_bool_decide as Hn; simpl; [| eauto].
  assert (Hnd0 : NoDup (cluster ++ [tile])).
  { apply NoDup_app. split; [done |]. split; [| apply NoDup_singleton].
    intros t Ht ->%list_elem_of_singleton. done. }
  assert (Hm0 : forall t, t ∈ cluster ++ [tile] -> matching layer opts t).
  { intros t [Ht | ->%list_elem_of_singleton]%elem_of_app; [by apply Hm |].
    by eapply getTile_matching. }
  assert (Hl0 : (length (matchingTiles layer opts)
                 < stack + length (cluster ++ [tile]))%nat).
  { rewrite length_app. simpl. lia. }
  destruct (IH x (y - 1) _ Hnd0 Hm0 Hl0) as [c1 E1]. rewrite E1. simpl.
  destruct (recursivelySearchNeighbors_searched _ _ _ _ _ E1) as [a1 S1].
  destruct (searched_keeps _ _ _ _ S1 Hnd0 Hm0) as (Hnd1 & Hm1 & Hl1).
  destruct (IH x (y + 1) _ Hnd1 Hm1 ltac:(lia)) as [c2 E2]. rewrite E2. simpl.
  destruct (recursivelySearchNeighbors_searched _ _ _ _ _ E2) as [a2 S2].
  destruct (searched_keeps _ _ _ _ S2 Hnd1 Hm1) as (Hnd2 & Hm2 & Hl2).
  destruct (IH (x + 1) y _ Hnd2 Hm2 ltac:(lia)) as [c3 E3]. rewrite E3. simpl.
  destruct (recursivelySearchNeighbors_searched _ _ _ _ _ E3) as [a3 S3].
  destruct (searched_keeps _ _ _ _ S3 Hnd2 Hm2) as (Hnd3 & Hm3 & Hl3).
  apply IH; [done .. | lia].
Qed.


(** *** The loops of [calculateClusters] *)

Lemma findTileInClusters_spec clusters t :
  is_Some (findTileInClusters clusters t) <-> t ∈ mjoin clusters.
Proof.
  induction clusters as [| c clusters IH]; simpl.
  - split; [by intros [? ?] | by intros ?%elem_of_nil].
  - rewrite elem_of_app.
    destruct (existsb _ c) eqn:E.
    + split; [| eauto]. intros _. left.
      apply existsb_exists in E as (u & Hu & Hd).
      apply bool_decide_eq_true in Hd as ->. by apply list_elem_of_In.
    + rewrite IH. split; [by right |]. intros [Hc | Hj]; [| done].
      assert (existsb (fun tile => bool_decide (t = tile)) c = true); [| congruence].
      apply existsb_exists. exists t. split; [by apply list_elem_of_In |].
      by apply bool_decide_eq_true.
Qed.

Lemma calculateClusters_scan stack :
  calculateClusters layer opts stack = scan layer opts stack (positions layer) (Some []).
Proof.
  unfold calculateClusters, scan, positions.
  generalize (seqZ 0 (height layer)) as ys, (seqZ 0 (width layer)) as xs.
  intros ys xs. generalize (Some (@nil (list Tile))) as acc.
  induction xs as [| x xs IH]; intros acc; [done |].
  change (cprod (x :: xs) ys) with (((x ,.) <$> ys) ++ cprod xs ys).
  rewrite foldl_app, foldl_fmap. simpl. apply IH.
Qed.

Lemma scan_None stack ps : scan layer opts stack ps None = None.
Proof. induction ps as [| p ps IH]; [done | exact IH]. Qed.

Lemma clustered_nil : clustered layer opts [] [].
Proof.
  split; simpl.
  - constructor.
  - by intros t ?%elem_of_nil.
  - by intros c ?%elem_of_nil.
  - by intros c a b ?%elem_of_nil.
  - by intros x y t ?%elem_of_nil.
Qed.

Lemma clustered_skip visited clusters x y :
  clustered layer opts visited clusters ->
  (forall t, getTile layer x y = Some t -> checkTile opts (Some t) = true ->
             t ∈ mjoin clusters) ->
  clustered layer opts (visited ++ [(x, y)]) clusters.
Proof.
  intros [N M C P V] Hin. split; try done.
  intros x' y' t [Hv | [= -> ->]%list_elem_of_singleton]%elem_of_app; eauto.
Qed.

Lemma clustered_push visited clusters x y tile c added :
  clustered layer opts visited clusters ->
  getTile layer x y = Some tile -> checkTile opts (Some tile) = true ->
  tile ∉ mjoin clusters ->
  searched layer opts [(x, y)] [] c added ->
  clustered layer opts (visited ++ [(x, y)]) (clusters ++ [c]).
Proof.
  intros [N M C P V] Hg Hc Hout [E Na W S Cl Pa]. simpl in E. subst c.
  assert (Hfrom : forall t, t ∈ added -> path_in added tile t).
  { intros t Ht. destruct (Pa t Ht) as (x' & y' & s & Hs & Hgs & Hp).
    apply list_elem_of_singleton in Hs as [= -> ->]. congruence. }
  assert (Hj : forall t, t ∈ mjoin (clusters ++ [added]) <->
                         t ∈ mjoin clusters \/ t ∈ added).
  { intros t. rewrite join_app, elem_of_app. simpl. by rewrite app_nil_r. }
  split.
  - rewrite join_app. simpl. rewrite app_nil_r. apply NoDup_app.
    split; [done |]. split; [| done].
    intros u Hu Ha. apply list_elem_of_join in Hu as (c & Huc & Hcc).
    apply Hout. apply list_elem_of_join. exists c. split; [| done].
    apply (closed_path_back added c tile u); auto.
    intros t Ht. by apply W.
  - intros t [Ht | Ht]%Hj; [by apply M | by apply W].
  - intros c [Hcc | ->%list_elem_of_singleton]%elem_of_app; [by apply C |].
    intros t n Ht Ha Hm. by eapply Cl.
  - intros c a b [Hcc | ->%list_elem_of_singleton]%elem_of_app Ha Hb;
      [by apply P |].
    eapply path_in_trans; [apply path_in_sym |]; by apply Hfrom.
  - intros x' y' t [Hv | [= -> ->]%list_elem_of_singleton]%elem_of_app Hgt Hct;
      apply Hj.
    + left. by eapply V.
    + right. by eapply S; [apply list_elem_of_singleton | |].
Qed.

Lemma visitTile_clustered stack visited clusters clusters' x y :
  clustered layer opts visited clusters ->
  visitTile layer opts stack clusters x y = Some clusters' ->
  clustered layer opts (visited ++ [(x, y)]) clusters'.
Proof.
  intros Hcl. unfold visitTile.
  destruct (getTile layer x y) as [tile |] eqn:Hg.
  2: { intros [= <-]. apply clustered_skip; [done |]. intros t Ht. congruence. }
  destruct (checkTile opts (Some tile)) eqn:Hc; simpl.
  2: { intros [= <-]. apply clustered_skip; [done |]. intros t Ht. congruence. }
  case_bool_decide as Hf; simpl.
  { intros [= <-]. apply clustered_skip; [done |]. intros t Ht _.
    assert (t = tile) as -> by congruence. by apply findTileInClusters_spec. }
  destruct (recursivelySearchNeighbors _ _ _ _ _ _) as [c |] eqn:E; simpl; [| done].
  intros [= <-].
  destruct (recursivelySearchNeighbors_searched _ _ _ _ _ E) as [added Hs].
  eapply clustered_push; eauto.
  intros Hin. by apply Hf, findTileInClusters_spec.
Qed.

Lemma visitTile_returns stack clusters x y :
  (gridSize layer < stack)%nat ->
  is_Some (visitTile layer opts stack clusters x y).
Proof.
  intros Hst. unfold visitTile.
  destruct (getTile layer x y) as [tile |]; [| eauto].
  destruct (_ && _); [| eauto].
  destruct (recursivelySearchNeighbors_returns stack x y []) as [c ->]; simpl; eauto.
  - constructor.
  - by intros t ?%elem_of_nil.
  - pose proof length_matchingTiles. lia.
Qed.

Lemma scan_clustered stack ps : forall visited clusters clusters',
  clustered layer opts visited clusters ->
  scan layer opts stack ps (Some clusters) = Some clusters' ->
  clustered layer opts (visited ++ ps) clusters'.
Proof.
  induction ps as [| [x y] ps IH]; intros visited clusters clusters' Hcl.
  - intros [= <-]. by rewrite app_nil_r.
  - unfold scan. simpl.
    destruct (visitTile layer opts stack clusters x y) as [clusters1 |] eqn:E.
    + intros Hs. rewrite (assoc_L (++) visited [(x, y)] ps : visited ++ (x, y) :: ps = _).
      eapply IH; [| exact Hs]. by eapply visitTile_clustered.
    + intros Hs. fold (scan layer opts stack ps None) in Hs.
      by rewrite scan_None in Hs.
Qed.

Lemma scan_returns stack ps : forall clusters,
  (gridSize layer < stack)%nat ->
  is_Some (scan layer opts stack ps (Some clusters)).
Proof.
  induction ps as [| [x y] ps IH]; intros clusters Hst; [by eexists |].
  unfold scan. simpl.
  destruct (visitTile_returns stack clusters x y Hst) as [clusters1 ->].
  by apply IH.
Qed.

(** With more free frames than positions [calculateClusters] returns, and
    whenever it returns the clusters are as [clustered] says for all the
    positions of the layer. *)
Lemma calculateClusters_returns stack :
  (gridSize layer < stack)%nat -> is_Some (calculateClusters layer opts stack).
Proof. intros Hst. rewrite calculateClusters_scan. by apply scan_returns. Qed.

Lemma calculateClusters_clustered stack clusters :
  calculateClusters layer opts stack = Some clusters ->
  clustered layer opts (positions layer) clusters.
Proof.
  rewrite calculateClusters_scan. intros Hs.
  by apply (scan_clustered stack (positions layer) [] [] clusters clustered_nil).
Qed.


Lemma clusters_apart (clusters : list (list Tile)) : forall i j c1 c2 t,
  NoDup (mjoin clusters) ->
  clusters !! i = Some c1 -> clusters !! j = Some c2 ->
  t ∈ c1 -> t ∈ c2 -> i = j.
Proof.
  induction clusters as [| c clusters IH]; intros i j c1 c2 t Hnd; [done |].
  simpl in Hnd. apply NoDup_app in Hnd as (_ & Hdis & Hnd).
  assert (Hin : forall k d, clusters !! k = Some d -> t ∈ d -> t ∈ mjoin clusters).
  { intros k d Hk Hd. apply list_elem_of_join. exists d. split; [done |].
    by eapply list_elem_of_lookup_2. }
  destruct i as [| i], j as [| j]; simpl; intros H1 H2 Ht1 Ht2; [done | | |].
  - injection H1 as ->. exfalso. eapply Hdis; eauto.
  - injection H2 as ->. exfalso. eapply Hdis; eauto.
  - f_equal. by eapply IH.
Qed.

(** *** Layers on which nothing matches *)

Lemma scan_no_match stack ps clusters :
  (forall x y, checkTile opts (getTile layer x y) = false) ->
  scan layer opts stack ps (Some clusters) = Some clusters.
Proof.
  intros Hno. induction ps as [| [x y] ps IH]; [done |].
  unfold scan. simpl. unfold visitTile. specialize (Hno x y).
  destruct (getTile layer x y) as [tile |]; [| exact IH].
  rewrite Hno. exact IH.
Qed.

Lemma calculateClusters_no_match stack :
  (forall x y, checkTile opts (getTile layer x y) = false) ->
  calculateClusters layer opts stack = Some [].
Proof. intros Hno. rewrite calculateClusters_scan. by apply scan_no_match. Qed.

Lemma getTile_empty_layer x y :
  width layer <= 0 \/ height layer <= 0 -> getTile layer x y = None.
Proof. intros Hwh. unfold getTile. case_bool_decide; [lia | done]. Qed.

Lemma checkTile_no_mode (tile : option Tile) :
  tileIndices opts = None -> tileProperty opts = None ->
  checkCollide opts = false -> checkTile opts tile = false.
Proof.
  intros Hi Hp Hc. unfold checkTile. destruct tile as [tile |]; [| done].
  by rewrite Hi, Hp, Hc.
Qed.

End ClusterFinderFacts.

(** *** One row of colliding tiles *)

Lemma getTile_rowLayer (n : nat) (x y : Z) :
  getTile (rowLayer n) x y =
  if bool_decide (0 <= x < Z.of_nat n /\ 0 <= y < 1)
  then Some (mkTile x y plainTile) else None.
Proof. reflexivity. Qed.

(** On a row of tiles the search from [(x, 0)] goes one call deeper for
    every tile to its right: it does not return within [k] frames when [k]
    tiles are still ahead. *)
Lemma row_search_overflows (n : nat) (stack : nat) : forall (k : nat) x cluster,
  (stack <= k)%nat -> 0 <= x -> x + Z.of_nat k <= Z.of_nat n ->
  (forall t, t ∈ cluster -> tile_x t < x) ->
  recursivelySearchNeighbors (rowLayer n) collideOptions stack x 0 cluster = None.
Proof.
  induction stack as [| stack IH]; intros k x cluster Hk Hx Hn Hleft; [done |].
  simpl. rewrite getTile_rowLayer. rewrite bool_decide_eq_true_2 by lia.
  change (checkTile collideOptions (Some (mkTile x 0 plainTile))) with true.
  rewrite bool_decide_eq_true_2.
  2: { intros Hin. apply Hleft in Hin. simpl in Hin. lia. }
  simpl. destruct stack as [| stack]; [done |].
  assert (Hup : recursivelySearchNeighbors (rowLayer n) collideOptions (S stack) x (0 - 1)
                  (cluster ++ [mkTile x 0 plainTile])
                = Some (cluster ++ [mkTile x 0 plainTile])).
  { simpl. rewrite getTile_rowLayer. by rewrite bool_decide_eq_false_2 by lia. }
  rewrite Hup. cbn [mbind option_bind].
  assert (Hdown : recursivelySearchNeighbors (rowLayer n) collideOptions (S stack) x (0 + 1)
                  (cluster ++ [mkTile x 0 plainTile])
                = Some (cluster ++ [mkTile x 0 plainTile])).
  { simpl. rewrite getTile_rowLayer. by rewrite bool_decide_eq_false_2 by lia. }
  rewrite Hdown. cbn [mbind option_bind].
  rewrite (IH (k - 1)%nat (x + 1)); [done | lia | lia | lia |].
  intros t [Ht | ->%list_elem_of_singleton]%elem_of_app.
  - apply Hleft in Ht. lia.
  - simpl. lia.
Qed.

Lemma row_clusters_overflow (n stack : nat) :
  (stack <= S n)%nat ->
  calculateClusters (rowLayer (S n)) collideOptions stack = None.
Proof.
  intros Hst. rewrite calculateClusters_scan. unfold positions.
  change (width (rowLayer (S n))) with (Z.of_nat (S n)).
  change (height (rowLayer (S n))) with 1.
  unfold seqZ at 1. rewrite Nat2Z.id.
  change (cprod _ _)
    with ((0, 0) :: cprod ((fun i => Z.of_nat i + 0) <$> seq 1 n) (seqZ 0 1)).
  unfold scan. simpl foldl.
  replace (visitTile (rowLayer (S n)) collideOptions stack [] 0 0) with (@None (list (list Tile))).
  { apply scan_None. }
  unfold visitTile. rewrite getTile_rowLayer. rewrite bool_decide_eq_true_2 by lia.
  change (checkTile collideOptions (Some (mkTile 0 0 plainTile))) with true.
  simpl. rewrite (row_search_overflows (S n) stack (S n) 0 []); [done | lia .. |].
  by intros t ?%elem_of_nil.
Qed.

(** * Properties of the edge reducer *)

(** C10. A line of length zero is collinear with every line, on either
    side of the test.  So the step of the walk on the segment of a repeated
    point pushes no edge and only moves the end of [currentEdge] to the
    repeated point, and the closing step on such a segment pushes the
    extended [currentEdge] alone, never the segment.  As a result a hull in
    which a point is repeated, and a hull that ends on its first point, give
    the polygon of the hull without the repetition: no edge of the polygon
    comes from it. *)
Theorem zero_length_segment_absorbed (l cur : Line) (edges : list Line)
    (p : Point) (pre post : list Point) :
  checkIfCollinear l (lineBetween p p) = true /\
  checkIfCollinear (lineBetween p p) l = true /\
  walkSegment (edges, cur) (lineBetween p p) =
    (edges, PhaserLine (line_start cur).1 (line_start cur).2 p.1 p.2) /\
  closeHull (edges, cur) (lineBetween p p) =
    edges ++ [PhaserLine (line_start cur).1 (line_start cur).2 p.1 p.2] /\
  buildPolygon (pre ++ p :: p :: post) = buildPolygon (pre ++ p :: post) /\
  buildPolygon (p :: post ++ [p]) = buildPolygon (p :: post).
Proof.
  repeat split.
  - apply checkIfCollinear_zero_r.
  - apply checkIfCollinear_zero_l.
  - unfold walkSegment. by rewrite checkIfCollinear_zero_r.
  - unfold closeHull. by rewrite checkIfCollinear_zero_r.
  - apply buildPolygon_repeat.
  - apply buildPolygon_closed_hull.
Qed.

(** C1. On the outline [midSideSquare] the walk ends with five edges whose
    first and last are the two halves of the side from [(0, 0)] to [(2, 0)].
    The merge fires and replaces them by one line, but that line runs from
    the start of the first edge to the end of the last edge: it is the
    empty line at [(1, 0)] and not the side from [(0, 0)] to [(2, 0)]. *)
Theorem merge_on_midSideSquare :
  collapseHull midSideSquare =
    Some [ PhaserLine 1 0 2 0; PhaserLine 2 0 2 2; PhaserLine 2 2 0 2;
           PhaserLine 0 2 0 0; PhaserLine 0 0 1 0 ] /\
  checkIfCollinear (PhaserLine 1 0 2 0) (PhaserLine 0 0 1 0) = true /\
  buildPolygon midSideSquare =
    Some [ PhaserLine 2 0 2 2; PhaserLine 2 2 0 2; PhaserLine 0 2 0 0;
           PhaserLine 1 0 1 0 ] /\
  PhaserLine 1 0 1 0 <> PhaserLine 0 0 2 0.
Proof. repeat split; try reflexivity. discriminate. Qed.

(** C2. The polygon built from [midSideSquare] ends with the empty line at
    [(1, 0)], which passes [checkIfCollinear] with both of its neighbours:
    two cyclically adjacent edges of the output are collinear. *)
Theorem collinear_neighbours_on_midSideSquare :
  exists edges,
    buildPolygon midSideSquare = Some edges /\
    hasCollinearNeighbours edges = true /\
    cyclicPair edges 2 = Some (PhaserLine 0 2 0 0, PhaserLine 1 0 1 0) /\
    checkIfCollinear (PhaserLine 0 2 0 0) (PhaserLine 1 0 1 0) = true /\
    cyclicPair edges 3 = Some (PhaserLine 1 0 1 0, PhaserLine 2 0 2 2) /\
    checkIfCollinear (PhaserLine 1 0 1 0) (PhaserLine 2 0 2 2) = true.
Proof. eexists. repeat split; reflexivity. Qed.

(** C4. The direction vectors of the polygon built from [midSideSquare]
    add up to [(-2, 0)], not to the zero vector. *)
Theorem open_polygon_on_midSideSquare :
  exists edges,
    buildPolygon midSideSquare = Some edges /\
    sumDirections edges = (-2, 0) /\
    sumDirections edges <> (0, 0).
Proof.
  eexists. split; [reflexivity |]. split; [reflexivity |].
  intros H. vm_compute in H. discriminate.
Qed.

(** C8. The four corners of an axis-aligned square (side [s], not zero),
    walked in either sense and started at any corner ([rotate k] starts the
    list [k] corners further), give exactly four edges: the four sides of
    the square, in the order of the walk.  Whatever the start, they are the
    same four sides. *)
Theorem square_from_any_corner (x y s : Z) (k : nat) :
  s <> 0 ->
  (exists edges,
     buildPolygon (rotate k (square x y s)) = Some edges /\
     length edges = 4%nat /\
     edges = rotate k (squareSides x y s) /\
     edges ≡ₚ squareSides x y s) /\
  (exists edges,
     buildPolygon (rotate k (reverse (square x y s))) = Some edges /\
     length edges = 4%nat /\
     edges = rotate k (squareSidesBack x y s) /\
     edges ≡ₚ squareSidesBack x y s).
Proof.
  intros Hs.
  assert (Hk : (k `mod` 4 < 4)%nat) by (apply Nat.mod_upper_bound; lia).
  split; eexists; (split; [| split; [| split; [reflexivity |]]]);
    try (by rewrite length_rotate); try apply rotate_perm.
  all: unfold rotate; simpl length;
    destruct (k `mod` 4)%nat as [|[|[|[|?]]]]; try lia; simpl;
      (rewrite buildPolygon_corners; [reflexivity | ..]);
      unfold lineBetween; simpl; apply checkIfCollinear_axes; lia.
Qed.

Lemma square_from_any_corner_witness :
  32 <> 0 /\
  (exists edges,
     buildPolygon (rotate 3 (square 32 64 32)) = Some edges /\
     length edges = 4%nat /\
     edges = rotate 3 (squareSides 32 64 32) /\
     edges ≡ₚ squareSides 32 64 32) /\
  (exists edges,
     buildPolygon (rotate 3 (reverse (square 32 64 32))) = Some edges /\
     length edges = 4%nat /\
     edges = rotate 3 (squareSidesBack 32 64 32) /\
     edges ≡ₚ squareSidesBack 32 64 32).
Proof. split; [lia | apply (square_from_any_corner 32 64 32 3); lia]. Defined.

(** * Properties of the cluster finder *)

(** C3. With more free stack frames than the layer has positions,
    [calculateClusters] returns, and its clusters partition the matching
    tiles: a tile is in some cluster exactly when it matches, no tile is
    listed twice in the clusters taken together, and a tile that is found in
    two clusters is found in one and the same cluster. *)
Theorem clusters_partition (layer : TilemapLayer) (opts : Options) (stack : nat) :
  (gridSize layer < stack)%nat ->
  exists clusters,
    calculateClusters layer opts stack = Some clusters /\
    (forall t, matching layer opts t <-> exists c, c ∈ clusters /\ t ∈ c) /\
    NoDup (mjoin clusters) /\
    (forall i j c1 c2 t,
        clusters !! i = Some c1 -> clusters !! j = Some c2 ->
        t ∈ c1 -> t ∈ c2 -> i = j).
Proof.
  intros Hst.
  destruct (calculateClusters_returns layer opts stack Hst) as [clusters Hc].
  exists clusters. split; [done |].
  destruct (calculateClusters_clustered _ _ _ _ Hc) as [N M C P V].
  split; [| split; [done |]].
  - intros t. split.
    + intros Hm.
      assert (Hin : t ∈ mjoin clusters).
      { apply (V (tile_x t) (tile_y t)); [| apply Hm ..].
        by eapply matching_position. }
      apply list_elem_of_join in Hin as (c & Htc & Hcc). eauto.
    + intros (c & Hcc & Htc). apply M, list_elem_of_join. eauto.
  - intros i j c1 c2 t. by apply clusters_apart.
Qed.

Lemma clusters_partition_witness :
  (gridSize sampleLayer < 10)%nat /\
  exists clusters,
    calculateClusters sampleLayer collideOptions 10 = Some clusters /\
    (forall t, matching sampleLayer collideOptions t <->
               exists c, c ∈ clusters /\ t ∈ c) /\
    NoDup (mjoin clusters) /\
    (forall i j c1 c2 t,
        clusters !! i = Some c1 -> clusters !! j = Some c2 ->
        t ∈ c1 -> t ∈ c2 -> i = j).
Proof.
  split; [vm_compute; lia |].
  apply (clusters_partition sampleLayer collideOptions 10). vm_compute. lia.
Defined.

(** C5. With more free stack frames than the layer has positions, the
    clusters that [calculateClusters] returns are connected and apart: two
    tiles of one cluster are joined by a path of 4-adjacent tiles of that
    cluster, all tiles of a cluster match, and a tile of one cluster is never
    4-adjacent to a tile of another cluster. *)
Theorem clusters_connected (layer : TilemapLayer) (opts : Options) (stack : nat) :
  (gridSize layer < stack)%nat ->
  exists clusters,
    calculateClusters layer opts stack = Some clusters /\
    (forall c a b, c ∈ clusters -> a ∈ c -> b ∈ c -> path_in c a b) /\
    (forall c t, c ∈ clusters -> t ∈ c -> matching layer opts t) /\
    (forall i j c1 c2 a b,
        clusters !! i = Some c1 -> clusters !! j = Some c2 -> i <> j ->
        a ∈ c1 -> b ∈ c2 -> ~ adjacent a b).
Proof.
  intros Hst.
  destruct (calculateClusters_returns layer opts stack Hst) as [clusters Hc].
  exists clusters. split; [done |].
  destruct (calculateClusters_clustered _ _ _ _ Hc) as [N M C P V].
  assert (Hm : forall c t, c ∈ clusters -> t ∈ c -> matching layer opts t).
  { intros c t Hcc Htc. apply M, list_elem_of_join. eauto. }
  split; [done |]. split; [done |].
  intros i j c1 c2 a b H1 H2 Hij Ha Hb Hadj. apply Hij.
  apply (clusters_apart clusters i j c1 c2 b); try done.
  apply (C c1 (list_elem_of_lookup_2 _ _ _ H1) a b); try done.
  apply (Hm c2); [by eapply list_elem_of_lookup_2 | done].
Qed.

Lemma clusters_connected_witness :
  (gridSize sampleLayer < 10)%nat /\
  exists clusters,
    calculateClusters sampleLayer collideOptions 10 = Some clusters /\
    (forall c a b, c ∈ clusters -> a ∈ c -> b ∈ c -> path_in c a b) /\
    (forall c t, c ∈ clusters -> t ∈ c -> matching sampleLayer collideOptions t) /\
    (forall i j c1 c2 a b,
        clusters !! i = Some c1 -> clusters !! j = Some c2 -> i <> j ->
        a ∈ c1 -> b ∈ c2 -> ~ adjacent a b).
Proof.
  split; [vm_compute; lia |].
  apply (clusters_connected sampleLayer collideOptions 10). vm_compute. lia.
Defined.

(** C9, amended.  [recursivelySearchNeighbors] is a plain recursion: it
    calls itself for each of the four neighbours and keeps no work-list.
    Its depth is bounded by the size of the layer: with more free stack
    frames than the layer has positions, [calculateClusters] returns. *)
Theorem recursion_depth_within_grid (layer : TilemapLayer) (opts : Options)
    (stack : nat) :
  (gridSize layer < stack)%nat ->
  is_Some (calculateClusters layer opts stack).
Proof. apply calculateClusters_returns. Qed.

Lemma recursion_depth_within_grid_witness :
  (gridSize (rowLayer 5) < 6)%nat /\
  is_Some (calculateClusters (rowLayer 5) collideOptions 6).
Proof.
  split; [vm_compute; lia |].
  apply (recursion_depth_within_grid (rowLayer 5) collideOptions 6).
  vm_compute. lia.
Defined.

(** C9, as stated, fails.  No number of stack frames is enough for all
    layers: whatever the number [depth], the search overflows on a row of
    [depth + 1] colliding tiles.  The depth of the recursion grows with the
    size of the cluster. *)
Lemma recursion_depth_unbounded :
  ~ exists depth : nat,
      forall (layer : TilemapLayer) (opts : Options),
        is_Some (calculateClusters layer opts depth).
Proof.
  intros [depth Hall].
  destruct (Hall (rowLayer (S depth)) collideOptions) as [clusters Hc].
  rewrite row_clusters_overflow in Hc by lia. discriminate.
Qed.

(** * Properties of the pipeline *)

(** C6. When no mode is configured, when the layer is empty, or when no
    tile of the layer passes the filter, then no position of the layer
    matches, there is no cluster and [phaserTiledHull] returns the empty list
    of polygons.  No stack frame is needed and nothing is thrown, whatever
    hull.js and [PolygonEdge] do. *)
Theorem nothing_matches_no_polygon
    (hulljs : list Point -> Z -> list Point)
    (PolygonEdge : Type) (newPolygonEdge : Line -> nat -> PolygonEdge)
    (stack : nat) (layer : TilemapLayer) (opts : Options) :
  (tileIndices opts = None /\ tileProperty opts = None /\
   checkCollide opts = false) \/
  (width layer <= 0 \/ height layer <= 0) \/
  (forall x y, checkTile opts (getTile layer x y) = false) ->
  (forall x y, checkTile opts (getTile layer x y) = false) /\
  calculateClusters layer opts stack = Some [] /\
  phaserTiledHull hulljs PolygonEdge newPolygonEdge stack layer opts = Some [].
Proof.
  intros Hcase.
  assert (Hno : forall x y, checkTile opts (getTile layer x y) = false).
  { destruct Hcase as [(Hi & Hp & Hc) | [Hempty | Hno]]; [| | done].
    - intros x y. by apply checkTile_no_mode.
    - intros x y. by rewrite getTile_empty_layer. }
  split; [done |].
  pose proof (calculateClusters_no_match layer opts stack Hno) as Hc.
  split; [done |]. unfold phaserTiledHull. by rewrite Hc.
Qed.

Lemma nothing_matches_no_polygon_witness :
  ((tileIndices defaultOptions = None /\ tileProperty defaultOptions = None /\
    checkCollide defaultOptions = false) \/
   (width sampleLayer <= 0 \/ height sampleLayer <= 0) \/
   (forall x y, checkTile defaultOptions (getTile sampleLayer x y) = false)) /\
  (forall x y, checkTile defaultOptions (getTile sampleLayer x y) = false) /\
  calculateClusters sampleLayer defaultOptions 0 = Some [] /\
  phaserTiledHull (fun points _ => points) Line (fun edge _ => edge) 0
                  sampleLayer defaultOptions = Some [].
Proof.
  assert (H : (tileIndices defaultOptions = None /\
               tileProperty defaultOptions = None /\
               checkCollide defaultOptions = false) \/
              (width sampleLayer <= 0 \/ height sampleLayer <= 0) \/
              (forall x y, checkTile defaultOptions (getTile sampleLayer x y) = false)).
  { left. repeat split; reflexivity. }
  split; [exact H |].
  exact (nothing_matches_no_polygon (fun points _ => points) Line
           (fun edge _ => edge) 0 sampleLayer defaultOptions H).
Defined.

(** * Further facts about the edge reducer *)

Section MoreWalk.

Implicit Types (l cur seg e : Line) (edges : list Line) (p q : Point)
  (pts h : list Point) (st : WalkState).

Lemma lineBetween_start p q : line_start (lineBetween p q) = p.
Proof. by destruct p. Qed.

Lemma lineBetween_end p q : line_end (lineBetween p q) = q.
Proof. by destruct q. Qed.

Lemma last_cons_default {A} (d d' x : A) (l : list A) :
  default d (last (x :: l)) = default d' (last (x :: l)).
Proof. destruct (last (x :: l)) eqn:E; [done |]. by apply last_None in E. Qed.

Lemma last_elem_of {A} (x y : A) (l : list A) :
  default y (last (x :: l)) ∈ x :: l.
Proof.
  destruct (last (x :: l)) as [z |] eqn:E; simpl.
  - rewrite last_lookup in E. by eapply list_elem_of_lookup_2.
  - by apply last_None in E.
Qed.

(** *** Chains *)

Lemma chained_change_last edges a a' :
  line_start a' = line_start a -> chained (edges ++ [a]) -> chained (edges ++ [a']).
Proof.
  intros Hs. induction edges as [| e [| e' edges] IH]; simpl; [done | |].
  - intros [He _]. split; [congruence | done].
  - intros [He Hc]. split; [done |]. by apply IH.
Qed.

Lemma chained_snoc edges a b :
  line_end a = line_start b -> chained (edges ++ [a]) -> chained (edges ++ [a; b]).
Proof.
  intros Hs. induction edges as [| e [| e' edges] IH]; simpl; [done | |].
  - intros [He _]. done.
  - intros [He Hc]. split; [done |]. by apply IH.
Qed.

Lemma chained_walkSegment st q r :
  line_end st.2 = q -> chained (st.1 ++ [st.2]) ->
  chained ((walkSegment st (lineBetween q r)).1
           ++ [(walkSegment st (lineBetween q r)).2]).
Proof.
  destruct st as [edges cur]. simpl. intros He Hc. unfold walkSegment.
  destruct (checkIfCollinear _ _); simpl.
  - apply (chained_change_last edges cur); [| done]. simpl.
    by destruct (line_start cur).
  - rewrite <- app_assoc. apply chained_snoc; [| done].
    by rewrite lineBetween_start.
Qed.

Lemma chained_walkAlong pts : forall st q,
  line_end st.2 = q -> chained (st.1 ++ [st.2]) ->
  chained ((walkAlong st (q :: pts)).1 ++ [(walkAlong st (q :: pts)).2]).
Proof.
  induction pts as [| r pts IH]; intros st q He Hc; [done |].
  rewrite walkAlong_cons. apply IH.
  - by rewrite walkSegment_end, lineBetween_end.
  - by apply chained_walkSegment.
Qed.

Lemma chained_closeHull st q p0 :
  line_end st.2 = q -> chained (st.1 ++ [st.2]) ->
  chained (closeHull st (lineBetween q p0)).
Proof.
  destruct st as [edges cur]. simpl. intros He Hc. unfold closeHull.
  destruct (checkIfCollinear _ _).
  - apply (chained_change_last edges cur); [| done]. simpl.
    by destruct (line_start cur).
  - apply chained_snoc; [| done]. by rewrite lineBetween_start.
Qed.

Lemma walkAlong_end_at pts : forall st q,
  line_end st.2 = q ->
  line_end (walkAlong st (q :: pts)).2 = default q (last (q :: pts)).
Proof.
  induction pts as [| r pts IH]; intros st q He; [done |].
  rewrite walkAlong_cons. rewrite (IH _ r).
  - change (last (q :: r :: pts)) with (last (r :: pts)).
    apply last_cons_default.
  - by rewrite walkSegment_end, lineBetween_end.
Qed.

Lemma collapseHull_chained h edges :
  collapseHull h = Some edges -> chained edges.
Proof.
  destruct h as [| p0 [| p1 rest]]; [done .. |].
  rewrite collapseHull_cons. intros [= <-].
  change (last (p0 :: p1 :: rest)) with (last (p1 :: rest)).
  rewrite (last_cons_default p0 p1).
  apply chained_closeHull.
  - apply walkAlong_end_at. apply lineBetween_end.
  - by apply chained_walkAlong; [apply lineBetween_end |].
Qed.

(** *** The corners of the polygon are points of the hull *)

Lemma onHull_walkSegment h st q r :
  q ∈ h -> r ∈ h -> Forall (onHull h) (st.1 ++ [st.2]) ->
  Forall (onHull h) ((walkSegment st (lineBetween q r)).1
                     ++ [(walkSegment st (lineBetween q r)).2]).
Proof.
  destruct st as [edges cur]. simpl. intros Hq Hr.
  rewrite !Forall_app, !Forall_singleton. intros [He [Hs Hc]].
  unfold walkSegment. destruct (checkIfCollinear _ _); simpl.
  - split; [done |]. split; simpl.
    + by destruct (line_start cur).
    + by destruct r.
  - rewrite Forall_app, Forall_singleton. repeat split; try done.
    + by rewrite lineBetween_start.
    + by rewrite lineBetween_end.
Qed.

Lemma onHull_walkAlong h pts : forall st q,
  (forall p, p ∈ q :: pts -> p ∈ h) ->
  Forall (onHull h) (st.1 ++ [st.2]) ->
  Forall (onHull h) ((walkAlong st (q :: pts)).1 ++ [(walkAlong st (q :: pts)).2]).
Proof.
  induction pts as [| r pts IH]; intros st q Hin Hst; [done |].
  rewrite walkAlong_cons. apply IH.
  - intros p Hp. apply Hin. by right.
  - apply onHull_walkSegment; [apply Hin; set_solver .. | done].
Qed.

Lemma onHull_closeHull h st q p0 :
  q ∈ h -> p0 ∈ h -> Forall (onHull h) (st.1 ++ [st.2]) ->
  Forall (onHull h) (closeHull st (lineBetween q p0)).
Proof.
  destruct st as [edges cur]. simpl. intros Hq Hp.
  rewrite !Forall_app, !Forall_singleton. intros [He [Hs Hc]].
  unfold closeHull. destruct (checkIfCollinear _ _).
  - rewrite Forall_app, Forall_singleton. split; [done |]. split; simpl.
    + by destruct (line_start cur).
    + by destruct p0.
  - rewrite Forall_app. split; [done |]. repeat constructor; try done.
    + by rewrite lineBetween_start.
    + by rewrite lineBetween_end.
Qed.

Lemma collapseHull_onHull h edges :
  collapseHull h = Some edges -> Forall (onHull h) edges.
Proof.
  destruct h as [| p0 [| p1 rest]]; [done .. |].
  rewrite collapseHull_cons. intros [= <-].
  apply onHull_closeHull.
  - apply (last_elem_of p0 p0 (p1 :: rest)).
  - by left.
  - apply onHull_walkAlong; [intros p Hp; by right |].
    simpl. constructor; [| done]. split.
    + rewrite lineBetween_start. by left.
    + rewrite lineBetween_end. right. by left.
Qed.

(** *** The number of edges *)

Lemma length_walkSegment st seg :
  (length (walkSegment st seg).1 <= S (length st.1))%nat.
Proof.
  destruct st as [edges cur]. unfold walkSegment.
  destruct (checkIfCollinear _ _); simpl; [lia |]. rewrite length_app. simpl. lia.
Qed.

Lemma length_walkAlong pts : forall st,
  (length (walkAlong st pts).1 <= length st.1 + (length pts - 1))%nat.
Proof.
  induction pts as [| q pts IH]; intros st; [unfold walkAlong; simpl; lia |].
  destruct pts as [| r pts]; [unfold walkAlong; simpl; lia |].
  rewrite walkAlong_cons.
  etrans; [apply IH |]. pose proof (length_walkSegment st (lineBetween q r)).
  simpl in *. lia.
Qed.

Lemma length_closeHull st seg :
  (1 <= length (closeHull st seg) <= length st.1 + 2)%nat.
Proof.
  destruct st as [edges cur]. unfold closeHull.
  destruct (checkIfCollinear _ _); rewrite length_app; simpl; lia.
Qed.

Lemma length_collapseHull h edges :
  collapseHull h = Some edges -> (1 <= length edges <= length h)%nat.
Proof.
  destruct h as [| p0 [| p1 rest]]; [done .. |].
  rewrite collapseHull_cons. intros [= <-].
  pose proof (length_closeHull (walkAlong ([], lineBetween p0 p1) (p1 :: rest))
     (lineBetween (default p0 (last (p0 :: p1 :: rest))) p0)) as H1.
  pose proof (length_walkAlong (p1 :: rest) ([], lineBetween p0 p1)) as H2.
  simpl in *. lia.
Qed.

Lemma mergeFirstAndLast_cases edges :
  (2 <= length edges)%nat ->
  exists first mid final,
    edges = first :: mid ++ [final] /\
    mergeFirstAndLast edges =
      Some (if checkIfCollinear first final
            then mid ++ [PhaserLine (line_start first).1 (line_start first).2
                                    (line_end final).1 (line_end final).2]
            else edges).
Proof.
  intros Hlen. destruct edges as [| first edges]; [simpl in Hlen; lia |].
  destruct edges as [| final mid _] using rev_ind; [simpl in Hlen; lia |].
  exists first, mid, final. split; [done |].
  destruct (checkIfCollinear first final) eqn:E.
  - by apply mergeFirstAndLast_fires.
  - apply mergeFirstAndLast_idle with first final; [done | | done].
    rewrite Nat.sub_1_r, <- last_lookup.
    by rewrite (last_snoc final (first :: mid) : last (first :: mid ++ [final]) = _).
Qed.

Lemma mergeFirstAndLast_one e : mergeFirstAndLast [e] = None.
Proof. unfold mergeFirstAndLast. simpl. by rewrite checkIfCollinear_refl. Qed.


(** *** Hulls on one line *)



(** *** Hulls that turn at every point *)





End MoreWalk.

(** ** Points inside a straight stretch *)

Section Stretch.

Implicit Types (l cur seg e : Line) (edges : list Line) (a m b p q : Point)
  (pts h : list Point) (st : WalkState).

(** Two vectors that are parallel to a third one, which is not zero, are
    parallel. *)
Lemma cross_trans (u w v : Z * Z) :
  cross u w = 0 -> cross w v = 0 -> w <> (0, 0) -> cross u v = 0.
Proof.
  destruct u as [u1 u2], w as [w1 w2], v as [v1 v2]. unfold cross. simpl.
  intros Huw Hwv Hw.
  destruct (decide (w1 = 0)) as [-> | Hw1].
  - assert (Hw2 : w2 <> 0) by congruence.
    assert (Hu1 : u1 * w2 = 0) by lia. assert (Hv1 : w2 * v1 = 0) by lia.
    apply Z.mul_eq_0 in Hu1 as [-> | ?]; [| done].
    apply Z.mul_eq_0 in Hv1 as [? | ->]; [done |]. lia.
  - apply (Z.mul_reg_l _ _ w1); [done |].
    replace (w1 * (u1 * v2 - u2 * v1))
      with (u1 * (w1 * v2 - w2 * v1) + v1 * (u1 * w2 - u2 * w1)) by ring.
    rewrite Huw, Hwv. ring.
Qed.

Lemma between_nonzero a m b : between a m b -> vsub m a <> (0, 0).
Proof.
  intros [_ Hd] E. rewrite E in Hd. unfold dot in Hd. simpl in Hd. lia.
Qed.

Lemma between_sum_nonzero a m b : between a m b -> vsub b a <> (0, 0).
Proof.
  destruct a as [a1 a2], m as [m1 m2], b as [b1 b2].
  intros [_ Hd] [= E1 E2]. unfold dot, vsub in Hd. simpl in *.
  assert (b1 = a1) as -> by lia. assert (b2 = a2) as -> by lia.
  pose proof (Z.square_nonneg (m1 - a1)). pose proof (Z.square_nonneg (m2 - a2)).
  nia.
Qed.

Lemma checkIfCollinear_cross l1 l2 :
  checkIfCollinear l1 l2 = true <-> cross (direction l1) (direction l2) = 0.
Proof. apply checkIfCollinear_spec. Qed.

Lemma direction_lineBetween p q : direction (lineBetween p q) = vsub q p.
Proof. reflexivity. Qed.

(** Seen from any line, the stretch from [a] to [b] is collinear exactly
    when its first part, from [a] to [m], is. *)
Lemma between_collinear cur a m b :
  between a m b ->
  checkIfCollinear cur (lineBetween a b) = checkIfCollinear cur (lineBetween a m).
Proof.
  intros Hb. apply eq_true_iff_eq.
  rewrite !checkIfCollinear_cross, !direction_lineBetween.
  pose proof (between_nonzero _ _ _ Hb) as Hnz.
  pose proof (between_sum_nonzero _ _ _ Hb) as Hsnz.
  destruct Hb as [Hc _].
  assert (Hpar : cross (vsub b a) (vsub m a) = 0).
  { revert Hc. destruct a, m, b. unfold cross, vsub. simpl. lia. }
  assert (Hpar' : cross (vsub m a) (vsub b a) = 0).
  { revert Hc. destruct a, m, b. unfold cross, vsub. simpl. lia. }
  split; intros H.
  - by apply (cross_trans _ (vsub b a)).
  - by apply (cross_trans _ (vsub m a)).
Qed.

Lemma between_halves a m b :
  between a m b ->
  checkIfCollinear (lineBetween a m) (lineBetween m b) = true.
Proof.
  intros [Hc _]. apply checkIfCollinear_cross. by rewrite !direction_lineBetween.
Qed.

(** Two steps of the walk over a point inside a stretch are one step over
    the stretch. *)
Lemma walkSegment_between st a m b :
  line_end st.2 = a -> between a m b ->
  walkSegment (walkSegment st (lineBetween a m)) (lineBetween m b) =
  walkSegment st (lineBetween a b).
Proof.
  destruct st as [edges [s e]]. simpl. intros -> Hb.
  pose proof (between_collinear (mkLine s a) a m b Hb) as Hsame.
  unfold walkSegment.
  destruct (checkIfCollinear (mkLine s a) (lineBetween a m)) eqn:E;
    rewrite Hsame; cbv beta iota.
  - assert (Hc : checkIfCollinear (PhaserLine s.1 s.2 m.1 m.2)
                                   (lineBetween m b) = true).
    { apply checkIfCollinear_cross.
      apply checkIfCollinear_cross in E.
      pose proof (between_nonzero _ _ _ Hb) as Hnz. destruct Hb as [Hc _].
      assert (H2 : cross (direction (mkLine s a)) (vsub b m) = 0).
      { by apply (cross_trans _ (vsub m a)). }
      revert E Hc H2. destruct s, a, m, b. unfold cross, vsub, direction. simpl. lia. }
    rewrite Hc. by destruct a, b.
  - rewrite (between_halves _ _ _ Hb). by destruct a, b.
Qed.

Lemma walkAlong_between post a m b pts : forall st,
  between a m b -> (pts = [] -> line_end st.2 = a) ->
  walkAlong st (pts ++ a :: m :: b :: post) = walkAlong st (pts ++ a :: b :: post).
Proof.
  induction pts as [| p pts IH]; intros st Hb Hend.
  - simpl. rewrite !walkAlong_cons. by rewrite walkSegment_between by auto.
  - destruct pts as [| q pts].
    + simpl. rewrite !walkAlong_cons.
      rewrite walkSegment_between; [done | | done].
      by rewrite walkSegment_end, lineBetween_end.
    + change (walkAlong st ((p :: q :: pts) ++ a :: m :: b :: post))
        with (walkAlong (walkSegment st (lineBetween p q))
                        ((q :: pts) ++ a :: m :: b :: post)).
      by rewrite IH.
Qed.

Lemma last_between pts a m b post :
  last (pts ++ a :: m :: b :: post) = last (pts ++ a :: b :: post).
Proof. rewrite !last_app. reflexivity. Qed.

Lemma collapseHull_between pre a m b post :
  between a m b ->
  collapseHull (pre ++ a :: m :: b :: post) = collapseHull (pre ++ a :: b :: post).
Proof.
  intros Hb. destruct pre as [| p pre].
  - simpl app. rewrite !collapseHull_cons.
    rewrite (walkAlong_cons _ m b post).
    unfold walkSegment at 1. rewrite (between_halves _ _ _ Hb).
    by destruct a, b.
  - destruct pre as [| q pre]; simpl app; rewrite !collapseHull_cons.
    + rewrite (walkAlong_between post a m b [] _ Hb)
        by (intros _; apply lineBetween_end).
      by rewrite (last_between [p] a m b post
                  : last (p :: a :: m :: b :: post) = last (p :: a :: b :: post)).
    + rewrite (walkAlong_between post a m b (q :: pre) _ Hb) by done.
      by rewrite (last_between (p :: q :: pre) a m b post
                  : last (p :: q :: pre ++ a :: m :: b :: post)
                    = last (p :: q :: pre ++ a :: b :: post)).
Qed.

End Stretch.

(** * Further properties of the edge reducer *)

(** X1. A hull of fewer than two points makes [buildPolygons] throw, for
    all the hulls that it was given: reading [hullPoints[1]] (or
    [hullPoints[0]]) gives [undefined], which cannot be spread. *)
Theorem short_hull_throws (hulls : list (list Point)) (h : list Point) :
  h ∈ hulls -> (length h < 2)%nat -> buildPolygons hulls = None.
Proof.
  intros Hin Hlen. apply mapM_None_2, Exists_exists. exists h. split; [done |].
  destruct h as [| p [| q h]]; [done | done | simpl in Hlen; lia].
Qed.

Lemma short_hull_throws_witness :
  ([(5, 5)] ∈ [square 0 0 1; [(5, 5)]] /\ (length [(5, 5)] < 2)%nat) /\
  buildPolygons [square 0 0 1; [(5, 5)]] = None.
Proof.
  assert (H1 : [(5, 5)] ∈ [square 0 0 1; [(5, 5)]]) by (right; left).
  assert (H2 : (length [(5, 5)] < 2)%nat) by (simpl; lia).
  split; [by split |].
  exact (short_hull_throws [square 0 0 1; [(5, 5)]] [(5, 5)] H1 H2).
Defined.



(** X3. On one hull [buildPolygons] throws in two cases only: the hull has
    fewer than two points, or the walk along it ends with a single edge.
    In every other case it returns a polygon. *)
Theorem buildPolygon_throws_iff (h : list Point) :
  buildPolygon h = None <->
  (length h < 2)%nat \/ exists e, collapseHull h = Some [e].
Proof.
  split.
  - intros Hnone. destruct h as [| p0 [| p1 rest]]; [left; simpl; lia .. |].
    right. unfold buildPolygon in Hnone.
    destruct (collapseHull (p0 :: p1 :: rest)) as [edges |] eqn:E.
    2: { by rewrite collapseHull_cons in E. }
    simpl in Hnone. pose proof (length_collapseHull _ _ E) as [Hl _].
    destruct edges as [| e [| e' edges]]; [simpl in Hl; lia | by exists e |].
    destruct (mergeFirstAndLast_cases (e :: e' :: edges)) as (f & m & l & _ & Hm);
      [simpl; lia |].
    congruence.
  - intros [Hlen | [e He]].
    + destruct h as [| p [| q h]]; [done | done | simpl in Hlen; lia].
    + unfold buildPolygon. rewrite He. apply mergeFirstAndLast_one.
Qed.

(** X4. When the first and the last edge of the walk are not collinear,
    the polygon is the list of edges of the walk, and the direction
    vectors of its edges add up to the zero vector. *)
Theorem unmerged_polygon_sums_to_zero (h : list Point) (edges : list Line)
    (first final : Line) :
  collapseHull h = Some edges ->
  edges !! 0%nat = Some first -> last edges = Some final ->
  checkIfCollinear first final = false ->
  buildPolygon h = Some edges /\ sumDirections edges = (0, 0).
Proof. apply buildPolygon_idle_closed. Qed.

Lemma unmerged_polygon_sums_to_zero_witness :
  (collapseHull (square 1 2 3) = Some (squareSides 1 2 3) /\
   squareSides 1 2 3 !! 0%nat = Some (PhaserLine 1 2 4 2) /\
   last (squareSides 1 2 3) = Some (PhaserLine 1 5 1 2) /\
   checkIfCollinear (PhaserLine 1 2 4 2) (PhaserLine 1 5 1 2) = false) /\
  buildPolygon (square 1 2 3) = Some (squareSides 1 2 3) /\
  sumDirections (squareSides 1 2 3) = (0, 0).
Proof.
  split; [repeat split; reflexivity |].
  apply (unmerged_polygon_sums_to_zero (square 1 2 3) (squareSides 1 2 3)
           (PhaserLine 1 2 4 2) (PhaserLine 1 5 1 2)); reflexivity.
Defined.

(** X5. When the first and the last edge of the walk are not collinear,
    the polygon is a closed chain: every edge ends where the next one
    starts, the first edge starts at the first point of the hull and the
    last edge ends there. *)
Theorem unmerged_polygon_is_closed_chain (h : list Point) (p0 : Point)
    (edges : list Line) (first final : Line) :
  h !! 0%nat = Some p0 -> collapseHull h = Some edges ->
  edges !! 0%nat = Some first -> last edges = Some final ->
  checkIfCollinear first final = false ->
  buildPolygon h = Some edges /\ chained edges /\
  line_start first = p0 /\ line_end final = p0.
Proof.
  intros Hp0 Hc Hf Hl Hcol.
  split; [by eapply buildPolygon_idle_closed |].
  split; [by eapply collapseHull_chained |].
  destruct (collapseHull_ends _ _ _ Hp0 Hc) as (f & l & Hf' & Hl' & Hs & He).
  split; congruence.
Qed.

Lemma unmerged_polygon_is_closed_chain_witness :
  (square 1 2 3 !! 0%nat = Some (1, 2) /\
   collapseHull (square 1 2 3) = Some (squareSides 1 2 3) /\
   squareSides 1 2 3 !! 0%nat = Some (PhaserLine 1 2 4 2) /\
   last (squareSides 1 2 3) = Some (PhaserLine 1 5 1 2) /\
   checkIfCollinear (PhaserLine 1 2 4 2) (PhaserLine 1 5 1 2) = false) /\
  buildPolygon (square 1 2 3) = Some (squareSides 1 2 3) /\
  chained (squareSides 1 2 3) /\
  line_start (PhaserLine 1 2 4 2) = (1, 2) /\
  line_end (PhaserLine 1 5 1 2) = (1, 2).
Proof.
  split; [repeat split; reflexivity |].
  apply (unmerged_polygon_is_closed_chain (square 1 2 3) (1, 2)
           (squareSides 1 2 3) (PhaserLine 1 2 4 2) (PhaserLine 1 5 1 2));
    reflexivity.
Defined.

(** X6. When the walk ends with at least two edges whose first and last
    are collinear, the merge removes both and pushes one line, and that line
    is always the line of length zero at the first point of the hull. *)
Theorem merged_edge_is_empty_line (h : list Point) (p0 : Point)
    (first final : Line) (mid : list Line) :
  h !! 0%nat = Some p0 ->
  collapseHull h = Some (first :: mid ++ [final]) ->
  checkIfCollinear first final = true ->
  buildPolygon h = Some (mid ++ [lineBetween p0 p0]).
Proof.
  intros Hp0 Hc Hcol.
  destruct (collapseHull_ends _ _ _ Hp0 Hc) as (f & l & Hf & Hl & Hs & He).
  injection Hf as <-.
  rewrite (last_snoc final (first :: mid) : last (first :: mid ++ [final]) = _) in Hl.
  injection Hl as <-.
  unfold buildPolygon. rewrite Hc. simpl.
  rewrite mergeFirstAndLast_fires by done. rewrite Hs, He. by destruct p0.
Qed.

Lemma merged_edge_is_empty_line_witness :
  (midSideSquare !! 0%nat = Some (1, 0) /\
   collapseHull midSideSquare =
     Some (PhaserLine 1 0 2 0
           :: [PhaserLine 2 0 2 2; PhaserLine 2 2 0 2; PhaserLine 0 2 0 0]
           ++ [PhaserLine 0 0 1 0]) /\
   checkIfCollinear (PhaserLine 1 0 2 0) (PhaserLine 0 0 1 0) = true) /\
  buildPolygon midSideSquare =
    Some ([PhaserLine 2 0 2 2; PhaserLine 2 2 0 2; PhaserLine 0 2 0 0]
          ++ [lineBetween (1, 0) (1, 0)]).
Proof.
  split; [repeat split; reflexivity |].
  apply (merged_edge_is_empty_line midSideSquare (1, 0) (PhaserLine 1 0 2 0)
           (PhaserLine 0 0 1 0)
           [PhaserLine 2 0 2 2; PhaserLine 2 2 0 2; PhaserLine 0 2 0 0]);
    reflexivity.
Defined.

(** X7. The reducer invents no point: both ends of every edge of a polygon
    are points of its hull. *)
Theorem polygon_corners_on_hull (h : list Point) (polygon : list Line) :
  buildPolygon h = Some polygon ->
  forall e, e ∈ polygon -> line_start e ∈ h /\ line_end e ∈ h.
Proof.
  unfold buildPolygon. destruct (collapseHull h) as [edges |] eqn:E; [| done].
  simpl. pose proof (collapseHull_onHull _ _ E) as Hon.
  rewrite Forall_forall in Hon.
  destruct edges as [| e0 [| e1 edges]]; [done | |].
  { by rewrite mergeFirstAndLast_one. }
  destruct (mergeFirstAndLast_cases (e0 :: e1 :: edges))
    as (f & m & l & Eq & Hm); [simpl; lia |].
  rewrite Hm. intros [= <-] e He.
  destruct (checkIfCollinear f l); [| by apply Hon].
  rewrite Eq in Hon.
  apply elem_of_app in He as [He | ->%list_elem_of_singleton].
  - apply Hon. set_solver.
  - split; simpl.
    + destruct (Hon f ltac:(set_solver)) as [Hs _]. by destruct (line_start f).
    + destruct (Hon l ltac:(set_solver)) as [_ He]. by destruct (line_end l).
Qed.

Lemma polygon_corners_on_hull_witness :
  buildPolygon midSideSquare =
    Some [ PhaserLine 2 0 2 2; PhaserLine 2 2 0 2; PhaserLine 0 2 0 0;
           PhaserLine 1 0 1 0 ] /\
  forall e, e ∈ [ PhaserLine 2 0 2 2; PhaserLine 2 2 0 2; PhaserLine 0 2 0 0;
                  PhaserLine 1 0 1 0 ] ->
            line_start e ∈ midSideSquare /\ line_end e ∈ midSideSquare.
Proof.
  split; [reflexivity |].
  apply (polygon_corners_on_hull midSideSquare). reflexivity.
Defined.

(** X8. A polygon has at least one edge and never more edges than its
    hull has points. *)
Theorem polygon_edge_count (h : list Point) (polygon : list Line) :
  buildPolygon h = Some polygon ->
  (1 <= length polygon <= length h)%nat.
Proof.
  unfold buildPolygon. destruct (collapseHull h) as [edges |] eqn:E; [| done].
  simpl. pose proof (length_collapseHull _ _ E) as Hlen.
  destruct edges as [| e0 [| e1 edges]]; [done | |].
  { by rewrite mergeFirstAndLast_one. }
  destruct (mergeFirstAndLast_cases (e0 :: e1 :: edges))
    as (f & m & l & Eq & Hm); [simpl; lia |].
  rewrite Hm. intros [= <-].
  destruct (checkIfCollinear f l); [| lia].
  rewrite Eq in Hlen. rewrite length_app. simpl in *.
  rewrite length_app in Hlen. simpl in Hlen. lia.
Qed.

Lemma polygon_edge_count_witness :
  buildPolygon midSideSquare =
    Some [ PhaserLine 2 0 2 2; PhaserLine 2 2 0 2; PhaserLine 0 2 0 0;
           PhaserLine 1 0 1 0 ] /\
  (1 <= length [ PhaserLine 2 0 2 2; PhaserLine 2 2 0 2; PhaserLine 0 2 0 0;
                 PhaserLine 1 0 1 0 ] <= length midSideSquare)%nat.
Proof.
  split; [reflexivity |].
  apply (polygon_edge_count midSideSquare). reflexivity.
Defined.



(** * Further facts about the cluster finder *)

Section MoreClusters.

Variable layer : TilemapLayer.
Variable opts : Options.

Implicit Types (t s n tile : Tile) (c cluster : list Tile) (x y : Z)
  (clusters : list (list Tile)).

Lemma recursivelySearchNeighbors_app stack x y cluster cluster' :
  recursivelySearchNeighbors layer opts stack x y cluster = Some cluster' ->
  exists added, cluster' = cluster ++ added.
Proof.
  intros H. destruct (recursivelySearchNeighbors_searched _ _ _ _ _ _ _ H)
    as [added [E _ _ _ _ _]]. by exists added.
Qed.

(** The two ways in which a search from [(x, y)] returns: at once, with
    the cluster as it was, or after it has pushed the tile at [(x, y)]. *)
Lemma recursivelySearchNeighbors_cases stack x y cluster cluster' :
  recursivelySearchNeighbors layer opts stack x y cluster = Some cluster' ->
  ((cluster' = cluster) /\
   (forall t, getTile layer x y = Some t -> checkTile opts (Some t) = true ->
              t ∈ cluster)) \/
  (exists tile rest,
     getTile layer x y = Some tile /\ checkTile opts (Some tile) = true /\
     (tile ∉ cluster) /\ cluster' = cluster ++ tile :: rest).
Proof.
  destruct stack as [| stack]; simpl; [done |].
  destruct (getTile layer x y) as [tile |] eqn:Hg.
  2: { intros [= <-]. left. split; [done |]. intros t Ht. congruence. }
  destruct (checkTile opts (Some tile)) eqn:Hc; simpl.
  2: { intros [= <-]. left. split; [done |]. intros t Ht. congruence. }
  case_bool_decide as Hn; simpl.
  2: { intros [= <-]. left. split; [done |]. intros t Ht _.
       by assert (t = tile) as -> by congruence. }
  destruct (recursivelySearchNeighbors _ _ stack x (y - 1) _) as [c1 |] eqn:E1;
    simpl; [| done].
  destruct (recursivelySearchNeighbors _ _ stack x (y + 1) _) as [c2 |] eqn:E2;
    simpl; [| done].
  destruct (recursivelySearchNeighbors _ _ stack (x + 1) y _) as [c3 |] eqn:E3;
    simpl; [| done].
  intros E4. right.
  apply recursivelySearchNeighbors_app in E1 as [a1 ->].
  apply recursivelySearchNeighbors_app in E2 as [a2 ->].
  apply recursivelySearchNeighbors_app in E3 as [a3 ->].
  apply recursivelySearchNeighbors_app in E4 as [a4 ->].
  exists tile, (a1 ++ a2 ++ a3 ++ a4). repeat split; try done.
  by rewrite <- !app_assoc.
Qed.

(** *** More stack changes nothing *)

Lemma recursivelySearchNeighbors_more_stack stack : forall stack' x y cluster cluster',
  (stack <= stack')%nat ->
  recursivelySearchNeighbors layer opts stack x y cluster = Some cluster' ->
  recursivelySearchNeighbors layer opts stack' x y cluster = Some cluster'.
Proof.
  induction stack as [| stack IH]; intros stack' x y cluster cluster' Hle; [done |].
  destruct stack' as [| stack']; [lia |]. simpl.
  destruct (getTile layer x y) as [tile |]; [| done].
  destruct (_ && _); [| done].
  destruct (recursivelySearchNeighbors _ _ stack x (y - 1) _) as [c1 |] eqn:E1;
    simpl; [| done].
  rewrite (IH stack' _ _ _ _ ltac:(lia) E1). simpl.
  destruct (recursivelySearchNeighbors _ _ stack x (y + 1) _) as [c2 |] eqn:E2;
    simpl; [| done].
  rewrite (IH stack' _ _ _ _ ltac:(lia) E2). simpl.
  destruct (recursivelySearchNeighbors _ _ stack (x + 1) y _) as [c3 |] eqn:E3;
    simpl; [| done].
  rewrite (IH stack' _ _ _ _ ltac:(lia) E3). simpl.
  apply IH. lia.
Qed.

Lemma visitTile_more_stack stack stack' clusters clusters' x y :
  (stack <= stack')%nat ->
  visitTile layer opts stack clusters x y = Some clusters' ->
  visitTile layer opts stack' clusters x y = Some clusters'.
Proof.
  intros Hle. unfold visitTile.
  destruct (getTile layer x y) as [tile |]; [| done].
  destruct (_ && _); [| done].
  destruct (recursivelySearchNeighbors _ _ stack x y []) as [c |] eqn:E;
    simpl; [| done].
  by rewrite (recursivelySearchNeighbors_more_stack _ _ _ _ _ _ Hle E).
Qed.

Lemma scan_more_stack stack stack' ps : forall clusters clusters',
  (stack <= stack')%nat ->
  scan layer opts stack ps (Some clusters) = Some clusters' ->
  scan layer opts stack' ps (Some clusters) = Some clusters'.
Proof.
  induction ps as [| [x y] ps IH]; intros clusters clusters' Hle; [done |].
  unfold scan. simpl.
  destruct (visitTile layer opts stack clusters x y) as [clusters1 |] eqn:E.
  - rewrite (visitTile_more_stack _ _ _ _ _ _ Hle E). by apply IH.
  - intros Hs. fold (scan layer opts stack ps None) in Hs.
    by rewrite scan_None in Hs.
Qed.

(** *** Where the clusters start *)

Lemma startPositions_snoc clusters tile rest :
  startPositions (clusters ++ [tile :: rest]) =
  startPositions clusters ++ [(tile_x tile, tile_y tile)].
Proof. unfold startPositions. by rewrite omap_app. Qed.

Lemma visitTile_starts stack visited clusters clusters' x y :
  Forall (fun c => c <> []) clusters ->
  startPositions clusters `sublist_of` visited ->
  visitTile layer opts stack clusters x y = Some clusters' ->
  Forall (fun c => c <> []) clusters' /\
  startPositions clusters' `sublist_of` visited ++ [(x, y)].
Proof.
  intros Hne Hsub. unfold visitTile.
  destruct (getTile layer x y) as [tile |] eqn:Hg.
  2: { intros [= <-]. split; [done | by apply sublist_inserts_r]. }
  destruct (checkTile opts (Some tile)) eqn:Hc; simpl.
  2: { intros [= <-]. split; [done | by apply sublist_inserts_r]. }
  destruct (negb _); simpl.
  2: { intros [= <-]. split; [done | by apply sublist_inserts_r]. }
  destruct (recursivelySearchNeighbors _ _ stack x y []) as [c |] eqn:E;
    simpl; [| done].
  intros [= <-].
  destruct (recursivelySearchNeighbors_cases _ _ _ _ _ E)
    as [[-> Hin] | (tile' & rest & Hg' & _ & _ & ->)].
  { by apply (Hin tile), elem_of_nil in Hc. }
  assert (tile' = tile) as -> by congruence.
  destruct (getTile_Some _ _ _ _ Hg) as (Hx & Hy & _).
  split.
  - apply Forall_app. split; [done |]. by repeat constructor.
  - simpl app. rewrite startPositions_snoc, Hx, Hy. by apply sublist_app.
Qed.

Lemma scan_starts stack ps : forall visited clusters clusters',
  Forall (fun c => c <> []) clusters ->
  startPositions clusters `sublist_of` visited ->
  scan layer opts stack ps (Some clusters) = Some clusters' ->
  Forall (fun c => c <> []) clusters' /\
  startPositions clusters' `sublist_of` visited ++ ps.
Proof.
  induction ps as [| [x y] ps IH]; intros visited clusters clusters' Hne Hsub.
  - intros [= <-]. by rewrite app_nil_r.
  - unfold scan. simpl.
    destruct (visitTile layer opts stack clusters x y) as [clusters1 |] eqn:E.
    + intros Hs.
      destruct (visitTile_starts _ _ _ _ _ _ Hne Hsub E) as [Hne1 Hsub1].
      rewrite (assoc_L (++) visited [(x, y)] ps : visited ++ (x, y) :: ps = _).
      by eapply IH.
    + intros Hs. fold (scan layer opts stack ps None) in Hs.
      by rewrite scan_None in Hs.
Qed.

(** *** Counting the tiles *)

Lemma NoDup_positions : NoDup (positions layer).
Proof.
  unfold positions, cprod, list_cprod. apply NoDup_bind.
  - intros x1 x2 p _ _ (y1 & -> & _)%list_elem_of_fmap (y2 & [= -> _] & _)%list_elem_of_fmap.
    done.
  - intros x _. apply NoDup_fmap_2_strong; [| apply NoDup_seqZ].
    by intros y1 y2 _ _ [= ->].
  - apply NoDup_seqZ.
Qed.

Lemma NoDup_matchingTiles : NoDup (matchingTiles layer opts).
Proof.
  unfold matchingTiles. apply NoDup_filter.
  pose proof NoDup_positions as Hnd. revert Hnd.
  generalize (positions layer) as ps.
  induction ps as [| [x y] ps IH]; csimpl; [constructor |].
  intros [Hout Hnd]%NoDup_cons. specialize (IH Hnd).
  destruct (getTile layer x y) as [t |] eqn:Hg; csimpl; [| done].
  constructor; [| done].
  intros (p & Hp & Hgp)%list_elem_of_omap. apply Hout.
  destruct p as [x' y']. simpl in Hgp.
  destruct (getTile_Some _ _ _ _ Hg) as (<- & <- & _).
  by destruct (getTile_Some _ _ _ _ Hgp) as (<- & <- & _).
Qed.

Lemma length_nonempty_join (ls : list (list Tile)) :
  Forall (fun c => c <> []) ls -> (length ls <= length (mjoin ls))%nat.
Proof.
  induction 1 as [| c ls Hc _ IH]; [done |].
  simpl. rewrite length_app. destruct c; [done |]. simpl. lia.
Qed.

End MoreClusters.

(** * Further properties of the cluster finder *)

(** X11. [findTileInClusters] returns the first cluster that holds the
    tile, and [null] exactly when no cluster holds it. *)
Theorem findTileInClusters_first (clusters : list (list Tile)) (t : Tile) :
  match findTileInClusters clusters t with
  | Some c =>
      exists before after,
        clusters = before ++ c :: after /\ t ∈ c /\
        forall c', c' ∈ before -> t ∉ c'
  | None => forall c, c ∈ clusters -> t ∉ c
  end.
Proof.
  induction clusters as [| c clusters IH]; simpl.
  - by intros c ?%elem_of_nil.
  - destruct (existsb _ c) eqn:E.
    + exists [], clusters. split; [done |]. split.
      * apply existsb_exists in E as (u & Hu & Hd).
        apply bool_decide_eq_true in Hd as ->. by apply list_elem_of_In.
      * by intros c' ?%elem_of_nil.
    + assert (Hout : t ∉ c).
      { intros Hin. apply not_true_iff_false in E. apply E, existsb_exists.
        exists t. split; [by apply list_elem_of_In | by apply bool_decide_eq_true]. }
      destruct (findTileInClusters clusters t) as [c0 |].
      * destruct IH as (before & after & -> & Hin & Hbefore).
        exists (c :: before), after. split; [done |]. split; [done |].
        intros c' [-> | Hc']%elem_of_cons; auto.
      * intros c' [-> | Hc']%elem_of_cons; auto.
Qed.

(** X12. An empty array of tile indices and an empty property name select
    nothing: with either of them [checkTile] answers as if the option had
    not been given. *)
Theorem empty_filters_select_nothing (indices : option (list Z))
    (name : option string) (collide : bool) (tile : option Tile) :
  checkTile (mkOptions (Some []) name collide) tile =
    checkTile (mkOptions None name collide) tile /\
  checkTile (mkOptions indices (Some EmptyString) collide) tile =
    checkTile (mkOptions indices None collide) tile.
Proof.
  destruct tile as [tile |]; [| done]. split; [| done].
  unfold checkTile. by simpl.
Qed.

(** X13. A search that returns has only appended to the cluster: the tiles
    that were in it stay where they were, and the tiles pushed behind them
    are distinct matching tiles that were not in it.  Nothing is pushed
    exactly when the position holds no matching tile that is still missing;
    otherwise the tile of the position is the first one pushed. *)
Theorem search_only_appends (layer : TilemapLayer) (opts : Options)
    (stack : nat) (x y : Z) (cluster cluster' : list Tile) :
  recursivelySearchNeighbors layer opts stack x y cluster = Some cluster' ->
  exists added,
    cluster' = cluster ++ added /\
    NoDup added /\
    (forall t, t ∈ added -> matching layer opts t /\ t ∉ cluster) /\
    (added = [] <->
     forall t, getTile layer x y = Some t -> checkTile opts (Some t) = true ->
               t ∈ cluster) /\
    (forall t, head added = Some t -> getTile layer x y = Some t).
Proof.
  intros H.
  destruct (recursivelySearchNeighbors_searched _ _ _ _ _ _ _ H)
    as [added [E N W _ _ _]].
  exists added. split; [done |]. split; [done |]. split; [done |].
  destruct (recursivelySearchNeighbors_cases _ _ _ _ _ _ _ H)
    as [[E' Hin] | (tile & rest & Hg & Hc & Hn & E')].
  - assert (added = []) as ->.
    { rewrite E' in E. rewrite <- (app_nil_r cluster) in E at 1.
      by apply app_inv_head in E. }
    split; [done |]. by intros t [=].
  - assert (added = tile :: rest) as ->.
    { rewrite E' in E. by apply app_inv_head in E. }
    split.
    + split; [done |]. intros Hin. exfalso. by apply Hn, Hin.
    + by intros t [= <-].
Qed.

Lemma search_only_appends_witness :
  recursivelySearchNeighbors sampleLayer collideOptions 5 0 1
    [mkTile 2 2 plainTile] =
    Some [mkTile 2 2 plainTile; mkTile 0 1 plainTile; mkTile 0 0 plainTile] /\
  exists added,
    [mkTile 2 2 plainTile; mkTile 0 1 plainTile; mkTile 0 0 plainTile] =
      [mkTile 2 2 plainTile] ++ added /\
    NoDup added /\
    (forall t, t ∈ added ->
               matching sampleLayer collideOptions t /\
               t ∉ [mkTile 2 2 plainTile]) /\
    (added = [] <->
     forall t, getTile sampleLayer 0 1 = Some t ->
               checkTile collideOptions (Some t) = true ->
               t ∈ [mkTile 2 2 plainTile]) /\
    (forall t, head added = Some t -> getTile sampleLayer 0 1 = Some t).
Proof.
  split; [reflexivity |].
  apply (search_only_appends sampleLayer collideOptions 5 0 1). reflexivity.
Defined.

(** X14. With more free stack frames than the layer has positions, the
    clusters come in the order in which the scan meets them: no cluster is
    empty, every cluster starts with the tile at which the scan found it,
    and these start positions follow each other as the positions of the
    layer do in the two loops, column after column and downwards in a
    column. *)
Theorem clusters_in_scan_order (layer : TilemapLayer) (opts : Options)
    (stack : nat) :
  (gridSize layer < stack)%nat ->
  exists clusters,
    calculateClusters layer opts stack = Some clusters /\
    Forall (fun c => c <> []) clusters /\
    startPositions clusters `sublist_of` positions layer.
Proof.
  intros Hst.
  destruct (calculateClusters_returns layer opts stack Hst) as [clusters Hc].
  exists clusters. split; [done |].
  rewrite calculateClusters_scan in Hc.
  apply (scan_starts layer opts stack (positions layer) [] [] clusters);
    [constructor | constructor | done].
Qed.

Lemma clusters_in_scan_order_witness :
  (gridSize sampleLayer < 10)%nat /\
  exists clusters,
    calculateClusters sampleLayer collideOptions 10 = Some clusters /\
    Forall (fun c => c <> []) clusters /\
    startPositions clusters `sublist_of` positions sampleLayer.
Proof.
  split; [vm_compute; lia |].
  apply (clusters_in_scan_order sampleLayer collideOptions 10). vm_compute. lia.
Defined.

(** X15. With more free stack frames than the layer has positions, the
    clusters together list the matching tiles of the layer, each once: they
    are a rearrangement of the matching tiles in scan order, and there are
    no more clusters than matching tiles. *)
Theorem clusters_count_matching_tiles (layer : TilemapLayer) (opts : Options)
    (stack : nat) :
  (gridSize layer < stack)%nat ->
  exists clusters,
    calculateClusters layer opts stack = Some clusters /\
    mjoin clusters ≡ₚ matchingTiles layer opts /\
    length (mjoin clusters) = length (matchingTiles layer opts) /\
    (length clusters <= length (matchingTiles layer opts))%nat.
Proof.
  intros Hst.
  destruct (calculateClusters_returns layer opts stack Hst) as [clusters Hc].
  exists clusters. split; [done |].
  destruct (calculateClusters_clustered _ _ _ _ Hc) as [N M C P V].
  assert (Hperm : mjoin clusters ≡ₚ matchingTiles layer opts).
  { apply NoDup_Permutation; [done | apply NoDup_matchingTiles |].
    intros t. rewrite <- matching_matchingTiles. split; [apply M |].
    intros Hm. apply (V (tile_x t) (tile_y t)); [| apply Hm ..].
    by eapply matching_position. }
  split; [done |]. split; [by rewrite Hperm |].
  rewrite <- Hperm. apply length_nonempty_join.
  rewrite calculateClusters_scan in Hc.
  apply (scan_starts layer opts stack (positions layer) [] [] clusters);
    [constructor | constructor | done].
Qed.

Lemma clusters_count_matching_tiles_witness :
  (gridSize sampleLayer < 10)%nat /\
  exists clusters,
    calculateClusters sampleLayer collideOptions 10 = Some clusters /\
    mjoin clusters ≡ₚ matchingTiles sampleLayer collideOptions /\
    length (mjoin clusters) = length (matchingTiles sampleLayer collideOptions) /\
    (length clusters <= length (matchingTiles sampleLayer collideOptions))%nat.
Proof.
  split; [vm_compute; lia |].
  apply (clusters_count_matching_tiles sampleLayer collideOptions 10).
  vm_compute. lia.
Defined.

(** X16. On a row of [n + 1] colliding tiles the search needs one stack
    frame for every tile and one more: [calculateClusters] returns exactly
    when more than [n + 1] frames are free. *)
Theorem row_needs_one_frame_per_tile (n stack : nat) :
  is_Some (calculateClusters (rowLayer (S n)) collideOptions stack) <->
  (S n < stack)%nat.
Proof.
  split.
  - intros [clusters Hc]. destruct (decide (S n < stack)%nat) as [| Hle]; [done |].
    rewrite row_clusters_overflow in Hc by lia. discriminate.
  - intros Hst. apply calculateClusters_returns.
    unfold gridSize. simpl width. simpl height. rewrite Nat2Z.id.
    change (Z.to_nat 1) with 1%nat. lia.
Qed.

(** X17. When [calculateClusters] returns under some limit of the stack,
    it returns the same clusters under every larger limit. *)
Theorem more_stack_same_clusters (layer : TilemapLayer) (opts : Options)
    (stack stack' : nat) (clusters : list (list Tile)) :
  (stack <= stack')%nat ->
  calculateClusters layer opts stack = Some clusters ->
  calculateClusters layer opts stack' = Some clusters.
Proof.
  intros Hle. rewrite !calculateClusters_scan. by apply scan_more_stack.
Qed.

Lemma more_stack_same_clusters_witness :
  ((3 <= 50)%nat /\
   calculateClusters sampleLayer collideOptions 3 =
     Some [ [mkTile 0 0 plainTile; mkTile 0 1 plainTile];
            [mkTile 2 1 plainTile; mkTile 2 2 plainTile] ]) /\
  calculateClusters sampleLayer collideOptions 50 =
    Some [ [mkTile 0 0 plainTile; mkTile 0 1 plainTile];
           [mkTile 2 1 plainTile; mkTile 2 2 plainTile] ].
Proof.
  assert (H1 : (3 <= 50)%nat) by lia.
  assert (H2 : calculateClusters sampleLayer collideOptions 3 =
     Some [ [mkTile 0 0 plainTile; mkTile 0 1 plainTile];
            [mkTile 2 1 plainTile; mkTile 2 2 plainTile] ]) by reflexivity.
  split; [by split |].
  exact (more_stack_same_clusters sampleLayer collideOptions 3 50 _ H1 H2).
Defined.

(** X18. With more free stack frames than the layer has positions, the
    clusters are whole connected regions: two matching tiles that are joined
    by a path of 4-adjacent matching tiles are in one and the same
    cluster. *)
Theorem connected_tiles_share_a_cluster (layer : TilemapLayer) (opts : Options)
    (stack : nat) :
  (gridSize layer < stack)%nat ->
  exists clusters,
    calculateClusters layer opts stack = Some clusters /\
    forall a b, path_in (matchingTiles layer opts) a b ->
                exists c, c ∈ clusters /\ a ∈ c /\ b ∈ c.
Proof.
  intros Hst.
  destruct (calculateClusters_returns layer opts stack Hst) as [clusters Hc].
  exists clusters. split; [done |].
  destruct (calculateClusters_clustered _ _ _ _ Hc) as [N M C P V].
  intros a b Hp.
  assert (Ha : matching layer opts a).
  { by apply matching_matchingTiles, (path_in_start _ _ b). }
  assert (Hin : a ∈ mjoin clusters).
  { apply (V (tile_x a) (tile_y a)); [| apply Ha ..]. by eapply matching_position. }
  apply list_elem_of_join in Hin as (c & Hac & Hcc).
  exists c. split; [done |]. split; [done |].
  apply (closed_path_back layer opts (matchingTiles layer opts) c b a).
  - by apply C.
  - intros t Ht. by apply matching_matchingTiles.
  - by apply path_in_sym.
  - done.
Qed.

Lemma connected_tiles_share_a_cluster_witness :
  (gridSize sampleLayer < 10)%nat /\
  exists clusters,
    calculateClusters sampleLayer collideOptions 10 = Some clusters /\
    forall a b, path_in (matchingTiles sampleLayer collideOptions) a b ->
                exists c, c ∈ clusters /\ a ∈ c /\ b ∈ c.
Proof.
  split; [vm_compute; lia |].
  apply (connected_tiles_share_a_cluster sampleLayer collideOptions 10).
  vm_compute. lia.
Defined.

(** * Further properties of the pipeline *)

Section MorePipeline.

Variable hulljs : list Point -> Z -> list Point.
Variable PolygonEdge : Type.
Variable newPolygonEdge : Line -> nat -> PolygonEdge.

Lemma calculateHullPoints_fmap (clusters : list (list Tile)) :
  calculateHullPoints hulljs clusters =
  (fun cluster => hulljs (cornerPoints cluster) 1) <$> clusters.
Proof. reflexivity. Qed.

Lemma length_cornerPoints (cluster : list Tile) :
  length (cornerPoints cluster) = (4 * length cluster)%nat.
Proof.
  unfold cornerPoints. induction cluster as [| t cluster IH]; [done |].
  csimpl. rewrite IH. lia.
Qed.

Lemma phaserTiledHull_Some stack layer opts clusters polyHulls :
  calculateClusters layer opts stack = Some clusters ->
  buildPolygons (calculateHullPoints hulljs clusters) = Some polyHulls ->
  phaserTiledHull hulljs PolygonEdge newPolygonEdge stack layer opts =
  Some (imap (fun (i : nat) (polyHull : list Line) =>
                (fun edge => newPolygonEdge edge i) <$> polyHull) polyHulls).
Proof. intros Hc Hb. unfold phaserTiledHull. rewrite Hc. simpl. by rewrite Hb. Qed.

End MorePipeline.

(** A list without repetition whose only possible element is [t] and that
    holds [t] is the list [[t]]. *)
Lemma NoDup_only {A} (t : A) (l : list A) :
  NoDup l -> t ∈ l -> (forall u, u ∈ l -> u = t) -> l = [t].
Proof.
  intros Hnd Hin Hall. destruct l as [| a l]; [by apply elem_of_nil in Hin |].
  assert (a = t) as -> by (apply Hall; by left).
  apply NoDup_cons in Hnd as [Hout _].
  destruct l as [| b l]; [done |].
  assert (b = t) as -> by (apply Hall; right; by left).
  exfalso. apply Hout. by left.
Qed.

Lemma join_singleton_nonempty {A} (t : A) (ls : list (list A)) :
  Forall (fun c => c <> []) ls -> mjoin ls = [t] -> ls = [[t]].
Proof.
  intros Hne Hj. destruct Hne as [| c ls Hc Hne]; [done |].
  simpl in Hj. destruct c as [| a c]; [done |]. simpl in Hj.
  injection Hj as -> Hj. apply app_eq_nil in Hj as [-> Hj].
  destruct Hne as [| c' ls Hc' Hne]; [done |].
  simpl in Hj. apply app_eq_nil in Hj as [-> _]. done.
Qed.

(** X19. When [phaserTiledHull] returns, it returns one polygon for every
    cluster, in the order of the clusters: polygon [i] is built from the hull
    that hull.js gives for the four corners of every tile of cluster [i]
    (with concavity [1]), and each of its edges is wrapped in a
    [PolygonEdge] that is given the number [i]. *)
Theorem one_polygon_per_cluster
    (hulljs : list Point -> Z -> list Point)
    (PolygonEdge : Type) (newPolygonEdge : Line -> nat -> PolygonEdge)
    (stack : nat) (layer : TilemapLayer) (opts : Options)
    (hulls : list (list PolygonEdge)) :
  phaserTiledHull hulljs PolygonEdge newPolygonEdge stack layer opts = Some hulls ->
  exists clusters,
    calculateClusters layer opts stack = Some clusters /\
    length hulls = length clusters /\
    forall (i : nat) (cluster : list Tile),
      clusters !! i = Some cluster ->
      length (cornerPoints cluster) = (4 * length cluster)%nat /\
      exists polygon,
        buildPolygon (hulljs (cornerPoints cluster) 1) = Some polygon /\
        hulls !! i = Some ((fun edge => newPolygonEdge edge i) <$> polygon).
Proof.
  unfold phaserTiledHull.
  destruct (calculateClusters layer opts stack) as [clusters |]; [| done]. simpl.
  destruct (buildPolygons _) as [polyHulls |] eqn:Hb; [| done]. simpl.
  intros [= <-]. exists clusters. split; [done |].
  apply mapM_Some_1 in Hb. rewrite calculateHullPoints_fmap in Hb.
  apply Forall2_fmap_l in Hb.
  split.
  - rewrite length_imap. symmetry. by eapply Forall2_length.
  - intros i cluster Hi. split; [apply length_cornerPoints |].
    destruct (Forall2_lookup_l _ _ _ _ _ Hb Hi) as (polygon & Hp & Hbuild).
    exists polygon. split; [done |].
    by rewrite list_lookup_imap, Hp.
Qed.

Lemma one_polygon_per_cluster_witness :
  phaserTiledHull middleHull Line (fun edge _ => edge) 10 middleLayer
                  collideOptions = Some [squareSides 32 32 32] /\
  exists clusters,
    calculateClusters middleLayer collideOptions 10 = Some clusters /\
    length [squareSides 32 32 32] = length clusters /\
    forall (i : nat) (cluster : list Tile),
      clusters !! i = Some cluster ->
      length (cornerPoints cluster) = (4 * length cluster)%nat /\
      exists polygon,
        buildPolygon (middleHull (cornerPoints cluster) 1) = Some polygon /\
        [squareSides 32 32 32] !! i = Some ((fun edge => edge) <$> polygon).
Proof.
  split; [reflexivity |].
  apply (one_polygon_per_cluster middleHull Line (fun edge _ => edge) 10
           middleLayer collideOptions [squareSides 32 32 32]).
  reflexivity.
Defined.

(** X20. [phaserTiledHull] throws in two cases only: the search for the
    clusters runs out of stack, or [buildPolygons] throws on the hull of one
    of the clusters.  One bad hull loses the polygons of all clusters. *)
Theorem phaserTiledHull_throws_iff
    (hulljs : list Point -> Z -> list Point)
    (PolygonEdge : Type) (newPolygonEdge : Line -> nat -> PolygonEdge)
    (stack : nat) (layer : TilemapLayer) (opts : Options) :
  phaserTiledHull hulljs PolygonEdge newPolygonEdge stack layer opts = None <->
  calculateClusters layer opts stack = None \/
  exists clusters cluster,
    calculateClusters layer opts stack = Some clusters /\
    cluster ∈ clusters /\
    buildPolygon (hulljs (cornerPoints cluster) 1) = None.
Proof.
  unfold phaserTiledHull.
  destruct (calculateClusters layer opts stack) as [clusters |]; simpl.
  2: { split; [by left | done]. }
  rewrite calculateHullPoints_fmap.
  destruct (buildPolygons _) as [polyHulls |] eqn:Hb; simpl.
  - split; [done |]. intros [? | (cs & cluster & [= <-] & Hin & Hnone)]; [done |].
    exfalso. apply mapM_Some_1, Forall2_fmap_l in Hb.
    apply list_elem_of_lookup in Hin as [i Hi].
    destruct (Forall2_lookup_l _ _ _ _ _ Hb Hi) as (polygon & _ & Hbuild).
    congruence.
  - split; [| done]. intros _. right.
    apply mapM_None_1, Exists_exists in Hb as (h & Hh & Hnone).
    apply list_elem_of_fmap in Hh as (cluster & -> & Hin).
    by exists clusters, cluster.
Qed.

(** X21. A layer with exactly one matching tile gives exactly one cluster,
    which holds that tile alone.  When hull.js answers the four corners of
    the tile with the outline of its rectangle (which has a width and a
    height), [phaserTiledHull] returns one polygon: the four sides of the
    rectangle, each wrapped with the number [0]. *)
Theorem single_tile_gives_its_rectangle
    (hulljs : list Point -> Z -> list Point)
    (PolygonEdge : Type) (newPolygonEdge : Line -> nat -> PolygonEdge)
    (stack : nat) (layer : TilemapLayer) (opts : Options) (t : Tile) :
  (gridSize layer < stack)%nat ->
  matching layer opts t ->
  (forall u, matching layer opts u -> u = t) ->
  tile_left (tile_data t) <> tile_right (tile_data t) ->
  tile_top (tile_data t) <> tile_bottom (tile_data t) ->
  hulljs (cornerPoints [t]) 1 =
    [ (tile_left (tile_data t), tile_top (tile_data t));
      (tile_right (tile_data t), tile_top (tile_data t));
      (tile_right (tile_data t), tile_bottom (tile_data t));
      (tile_left (tile_data t), tile_bottom (tile_data t)) ] ->
  calculateClusters layer opts stack = Some [[t]] /\
  phaserTiledHull hulljs PolygonEdge newPolygonEdge stack layer opts =
    Some [ (fun edge => newPolygonEdge edge 0%nat) <$>
           [ PhaserLine (tile_left (tile_data t)) (tile_top (tile_data t))
                        (tile_right (tile_data t)) (tile_top (tile_data t));
             PhaserLine (tile_right (tile_data t)) (tile_top (tile_data t))
                        (tile_right (tile_data t)) (tile_bottom (tile_data t));
             PhaserLine (tile_right (tile_data t)) (tile_bottom (tile_data t))
                        (tile_left (tile_data t)) (tile_bottom (tile_data t));
             PhaserLine (tile_left (tile_data t)) (tile_bottom (tile_data t))
                        (tile_left (tile_data t)) (tile_top (tile_data t)) ] ].
Proof.
  intros Hst Hm Honly Hw Hh Hhull.
  destruct (calculateClusters_returns layer opts stack Hst) as [clusters Hc].
  assert (Hcl : clusters = [[t]]).
  { destruct (calculateClusters_clustered _ _ _ _ Hc) as [N M C P V].
    apply join_singleton_nonempty.
    - rewrite calculateClusters_scan in Hc.
      apply (scan_starts layer opts stack (positions layer) [] [] clusters);
        [constructor | constructor | done].
    - apply NoDup_only; [done | | by intros u Hu; apply Honly, M].
      apply (V (tile_x t) (tile_y t)); [| apply Hm ..].
      by eapply matching_position. }
  subst clusters. split; [done |].
  assert (Hb : buildPolygons (calculateHullPoints hulljs [[t]]) =
    Some [ [ PhaserLine (tile_left (tile_data t)) (tile_top (tile_data t))
                        (tile_right (tile_data t)) (tile_top (tile_data t));
             PhaserLine (tile_right (tile_data t)) (tile_top (tile_data t))
                        (tile_right (tile_data t)) (tile_bottom (tile_data t));
             PhaserLine (tile_right (tile_data t)) (tile_bottom (tile_data t))
                        (tile_left (tile_data t)) (tile_bottom (tile_data t));
             PhaserLine (tile_left (tile_data t)) (tile_bottom (tile_data t))
                        (tile_left (tile_data t)) (tile_top (tile_data t)) ] ]).
  { rewrite calculateHullPoints_fmap.
    change ((fun cluster => hulljs (cornerPoints cluster) 1) <$> [[t]])
      with [hulljs (cornerPoints [t]) 1].
    rewrite Hhull. unfold buildPolygons. simpl.
    rewrite buildPolygon_corners; [reflexivity | ..]; unfold lineBetween; simpl;
      apply checkIfCollinear_axes; done. }
  by rewrite (phaserTiledHull_Some hulljs PolygonEdge newPolygonEdge _ _ _ _ _ Hc Hb).
Qed.

Lemma single_tile_gives_its_rectangle_witness :
  ((gridSize middleLayer < 10)%nat /\
   matching middleLayer collideOptions (mkTile 1 1 middleTile) /\
   (forall u, matching middleLayer collideOptions u -> u = mkTile 1 1 middleTile) /\
   32 <> 64 /\ 32 <> 64 /\
   middleHull (cornerPoints [mkTile 1 1 middleTile]) 1 =
     [(32, 32); (64, 32); (64, 64); (32, 64)]) /\
  calculateClusters middleLayer collideOptions 10 = Some [[mkTile 1 1 middleTile]] /\
  phaserTiledHull middleHull Line (fun edge _ => edge) 10 middleLayer
                  collideOptions =
    Some [ [ PhaserLine 32 32 64 32; PhaserLine 64 32 64 64;
             PhaserLine 64 64 32 64; PhaserLine 32 64 32 32 ] ].
Proof.
  assert (H1 : (gridSize middleLayer < 10)%nat) by (vm_compute; lia).
  assert (H2 : matching middleLayer collideOptions (mkTile 1 1 middleTile))
    by (split; reflexivity).
  assert (H3 : forall u, matching middleLayer collideOptions u ->
                         u = mkTile 1 1 middleTile).
  { intros [x y d] [Hg _]. unfold getTile in Hg. simpl in Hg.
    case_bool_decide; [| done]. case_bool_decide as Hxy; [| done].
    destruct Hxy as [-> ->]. by injection Hg as <-. }
  assert (H4 : 32 <> 64) by lia.
  split; [by repeat split |].
  exact (single_tile_gives_its_rectangle middleHull Line (fun edge _ => edge)
           10 middleLayer collideOptions (mkTile 1 1 middleTile)
           H1 H2 H3 H4 H4 eq_refl).
Defined.

(** * The edge reducer in double arithmetic *)

Section DoubleArithmetic.

Implicit Types (z a b c d : Z) (l : Line) (p q : Point) (h : list Point).

Lemma roundDouble_exact z : Z.abs z <= 2 ^ 53 -> roundDouble z = Some z.
Proof.
  intros Hz. unfold roundDouble.
  by rewrite (proj2 (Z.leb_le _ _) Hz).
Qed.

(** Up to [2^54] rounding gives a finite double, which is zero only for
    zero. *)
Lemma roundDouble_near z :
  Z.abs z <= 2 ^ 54 -> exists r, roundDouble z = Some r /\ (r = 0 -> z = 0).
Proof.
  intros Hz. destruct (decide (Z.abs z <= 2 ^ 53)) as [Hs | Hl].
  { exists z. split; [by apply roundDouble_exact | done]. }
  unfold roundDouble. rewrite (proj2 (Z.leb_gt _ _)) by lia.
  assert (Hlog : 53 <= Z.log2 (Z.abs z) <= 54).
  { split.
    - change 53 with (Z.log2 (2 ^ 53)). apply Z.log2_le_mono. lia.
    - change 54 with (Z.log2 (2 ^ 54)). by apply Z.log2_le_mono. }
  set (e := Z.log2 (Z.abs z) - 52).
  assert (He : e = 1 \/ e = 2) by (unfold e; lia).
  set (q := Z.abs z / 2 ^ e).
  set (q' := if Z.abs z mod 2 ^ e <? 2 ^ (e - 1) then q
             else if 2 ^ (e - 1) <? Z.abs z mod 2 ^ e then q + 1
             else if Z.even q then q else q + 1).
  assert (Hq : 2 ^ 51 <= q <= 2 ^ 53).
  { unfold q. destruct He as [-> | ->].
    - change (2 ^ 1) with 2. split.
      + apply Z.div_le_lower_bound; lia.
      + apply Z.div_le_upper_bound; lia.
    - change (2 ^ 2) with 4. split.
      + apply Z.div_le_lower_bound; lia.
      + apply Z.div_le_upper_bound; lia. }
  assert (Hq' : q <= q' <= q + 1).
  { unfold q'. repeat case_match; lia. }
  assert (Hpow : 0 < 2 ^ e <= 4) by (destruct He as [-> | ->]; lia).
  assert (Hbig : 2 ^ 56 < 2 ^ 1024) by reflexivity.
  assert (Hprod : 0 < q' * 2 ^ e <= 2 ^ 56) by nia.
  rewrite (proj2 (Z.ltb_lt _ _)) by lia.
  eexists. split; [reflexivity |].
  intros Hr. destruct (Z.sgn_spec z) as [[? Hsg] | [[? Hsg] | [? Hsg]]]; [| lia |];
    rewrite Hsg in Hr; lia.
Qed.

Lemma roundDouble_zero : roundDouble 0 = Some 0.
Proof. reflexivity. Qed.

(** The product of two differences of coordinates is computed exactly when
    it stays below [2^53]. *)
Lemma mulDouble_exact d1 d2 :
  Z.abs d1 <= 2 ^ 54 -> Z.abs d2 <= 2 ^ 54 -> Z.abs (d1 * d2) < 2 ^ 53 ->
  mulDouble (roundDouble d1) (roundDouble d2) = Some (d1 * d2).
Proof.
  intros H1 H2 Hp.
  destruct (decide (d1 = 0)) as [-> | Hn1].
  { destruct (roundDouble_near d2 H2) as (r & -> & _). rewrite roundDouble_zero.
    unfold mulDouble. cbn [mbind option_bind]. by rewrite !Z.mul_0_l. }
  destruct (decide (d2 = 0)) as [-> | Hn2].
  { destruct (roundDouble_near d1 H1) as (r & -> & _). rewrite roundDouble_zero.
    unfold mulDouble. cbn [mbind option_bind]. by rewrite !Z.mul_0_r. }
  rewrite Z.abs_mul in Hp.
  assert (Z.abs d1 <= 2 ^ 53) by nia. assert (Z.abs d2 <= 2 ^ 53) by nia.
  rewrite !roundDouble_exact by done.
  unfold mulDouble. cbn [mbind option_bind].
  apply roundDouble_exact. rewrite Z.abs_mul. lia.
Qed.

(** As long as the coordinates are integers that doubles hold and both
    products stay below [2^53], the engine's test is the exact test. *)
Lemma checkIfCollinearDouble_checkIfCollinear (x1 y1 x2 y2 x3 y3 x4 y4 : Z) :
  Forall (fun c => Z.abs c <= 2 ^ 53) [x1; y1; x2; y2; x3; y3; x4; y4] ->
  Z.abs ((x2 - x1) * (y4 - y3)) < 2 ^ 53 ->
  Z.abs ((y2 - y1) * (x4 - x3)) < 2 ^ 53 ->
  checkIfCollinearDouble (PhaserLine x1 y1 x2 y2) (PhaserLine x3 y3 x4 y4) =
  checkIfCollinear (PhaserLine x1 y1 x2 y2) (PhaserLine x3 y3 x4 y4).
Proof.
  intros Hc Hp1 Hp2.
  repeat (apply Forall_cons in Hc as [? Hc]).
  unfold checkIfCollinearDouble, checkIfCollinear. simpl.
  rewrite (mulDouble_exact (x2 - x1) (y4 - y3)) by lia.
  rewrite (mulDouble_exact (y2 - y1) (x4 - x3)) by lia.
  simpl.
  destruct (roundDouble_near ((x2 - x1) * (y4 - y3) - (y2 - y1) * (x4 - x3)))
    as (r & Er & Hr); [lia |].
  unfold subDouble. cbn [mbind option_bind]. rewrite Er.
  destruct (Z.eqb_spec r 0) as [-> | Hn].
  - symmetry. apply Z.eqb_eq. auto.
  - symmetry. apply Z.eqb_neq. intros E. rewrite E, roundDouble_zero in Er.
    congruence.
Qed.

Lemma checkIfCollinearDouble_small l1 l2 :
  smallPoint (line_start l1) -> smallPoint (line_end l1) ->
  smallPoint (line_start l2) -> smallPoint (line_end l2) ->
  checkIfCollinearDouble l1 l2 = checkIfCollinear l1 l2.
Proof.
  destruct l1 as [[x1 y1] [x2 y2]], l2 as [[x3 y3] [x4 y4]].
  unfold smallPoint. simpl. intros [? ?] [? ?] [? ?] [? ?].
  assert (H25 : 2 ^ 25 = 33554432) by reflexivity.
  assert (H53 : 2 ^ 53 = 9007199254740992) by reflexivity.
  apply (checkIfCollinearDouble_checkIfCollinear x1 y1 x2 y2 x3 y3 x4 y4).
  - repeat constructor; lia.
  - rewrite Z.abs_mul. assert (Z.abs (x2 - x1) <= 2 ^ 26) by lia.
    assert (Z.abs (y4 - y3) <= 2 ^ 26) by lia. nia.
  - rewrite Z.abs_mul. assert (Z.abs (y2 - y1) <= 2 ^ 26) by lia.
    assert (Z.abs (x4 - x3) <= 2 ^ 26) by lia. nia.
Qed.

End DoubleArithmetic.

(** ** The walk with another test of collinearity *)

Section WalkWithFacts.

Variable collinear : Line -> Line -> bool.
Variable h : list Point.

(** The test agrees with [checkIfCollinear] on the lines between points of
    the hull [h]. *)
Hypothesis collinear_onHull : forall l1 l2,
  onHull h l1 -> onHull h l2 -> collinear l1 l2 = checkIfCollinear l1 l2.

Implicit Types (l cur seg e : Line) (edges : list Line) (p q : Point)
  (pts : list Point) (st : WalkState).

Lemma onHull_lineBetween p q : p ∈ h -> q ∈ h -> onHull h (lineBetween p q).
Proof. intros Hp Hq. split; [by rewrite lineBetween_start | by rewrite lineBetween_end]. Qed.

Lemma walkSegmentWith_walkSegment st seg :
  onHull h st.2 -> onHull h seg ->
  walkSegmentWith collinear st seg = walkSegment st seg.
Proof.
  destruct st as [edges cur]. simpl. intros Hc Hs.
  unfold walkSegmentWith, walkSegment. by rewrite collinear_onHull.
Qed.

Lemma closeHullWith_closeHull st seg :
  onHull h st.2 -> onHull h seg ->
  closeHullWith collinear st seg = closeHull st seg.
Proof.
  destruct st as [edges cur]. simpl. intros Hc Hs.
  unfold closeHullWith, closeHull. by rewrite collinear_onHull.
Qed.

Lemma mergeFirstAndLastWith_mergeFirstAndLast edges :
  Forall (onHull h) edges ->
  mergeFirstAndLastWith collinear edges = mergeFirstAndLast edges.
Proof.
  intros Hon. unfold mergeFirstAndLastWith, mergeFirstAndLast.
  destruct (edges !! 0%nat) as [first |] eqn:E0; [| done]. simpl.
  destruct (edges !! (length edges - 1)%nat) as [final |] eqn:En; [| done]. simpl.
  rewrite Forall_forall in Hon.
  rewrite collinear_onHull; [done | |]; apply Hon; by eapply list_elem_of_lookup_2.
Qed.

(** The loop over the indices is a fold over the segments, whatever the
    step is. *)
Lemma foldl_segments (f : WalkState -> Line -> WalkState) (hull : list Point) st :
  forall post pre p,
  hull = pre ++ p :: post ->
  foldl (fun (acc : option WalkState) (i : nat) =>
           st ← acc;
           p ← hull !! (i - 1)%nat;
           q ← hull !! i;
           Some (f st (lineBetween p q)))
        (Some st) (seq (S (length pre)) (length post))
  = Some (foldl f st (segments (p :: post))).
Proof.
  intros post. revert st.
  induction post as [| q post IH]; intros st pre p Hh; [done |].
  simpl seq. simpl foldl. rewrite Nat.sub_0_r.
  assert (Hp : hull !! length pre = Some p).
  { subst hull. by rewrite lookup_app_r, Nat.sub_diag by lia. }
  assert (Hq : hull !! S (length pre) = Some q).
  { subst hull. rewrite lookup_app_r by lia.
    by replace (S (length pre) - length pre)%nat with 1%nat by lia. }
  rewrite Hp, Hq. simpl.
  specialize (IH (f st (lineBetween p q)) (pre ++ [p]) q).
  rewrite length_app in IH. simpl in IH.
  replace (length pre + 1)%nat with (S (length pre)) in IH by lia.
  rewrite IH; [done |]. subst hull. by rewrite <- app_assoc.
Qed.

Lemma walkHullWith_segments (hull : list Point) cur :
  walkHullWith collinear hull cur =
  Some (foldl (walkSegmentWith collinear) ([], cur) (segments hull)).
Proof.
  unfold walkHullWith. destruct hull as [| p post]; [done |].
  replace (length (p :: post) - 1)%nat with (length post) by (simpl; lia).
  by apply (foldl_segments (walkSegmentWith collinear) (p :: post) ([], cur) post [] p).
Qed.

Lemma foldl_walkSegmentWith pts : forall st,
  (forall p, p ∈ pts -> p ∈ h) ->
  Forall (onHull h) (st.1 ++ [st.2]) ->
  foldl (walkSegmentWith collinear) st (segments pts) = walkAlong st pts.
Proof.
  induction pts as [| q pts IH]; intros st Hin Hst; [done |].
  destruct pts as [| r pts]; [done |].
  rewrite walkAlong_cons.
  change (segments (q :: r :: pts)) with (lineBetween q r :: segments (r :: pts)).
  simpl foldl.
  assert (Hq : q ∈ h) by (apply Hin; by left).
  assert (Hr : r ∈ h) by (apply Hin; right; by left).
  rewrite walkSegmentWith_walkSegment.
  - apply IH.
    + intros p Hp. apply Hin. by right.
    + by apply onHull_walkSegment.
  - rewrite Forall_app, Forall_singleton in Hst. apply Hst.
  - by apply onHull_lineBetween.
Qed.

Lemma onHull_walkAlong_any pts st :
  (forall p, p ∈ pts -> p ∈ h) ->
  Forall (onHull h) (st.1 ++ [st.2]) ->
  Forall (onHull h) ((walkAlong st pts).1 ++ [(walkAlong st pts).2]).
Proof.
  destruct pts as [| q pts]; [done |]. apply onHull_walkAlong.
Qed.

Lemma collapseHullWith_collapseHull :
  collapseHullWith collinear h = collapseHull h.
Proof.
  unfold collapseHullWith, collapseHull.
  destruct (h !! 0%nat) as [p0 |] eqn:E0; [| done]. simpl.
  destruct (h !! 1%nat) as [p1 |] eqn:E1; [| done]. simpl.
  assert (H0 : p0 ∈ h) by (by eapply list_elem_of_lookup_2).
  assert (H1 : p1 ∈ h) by (by eapply list_elem_of_lookup_2).
  rewrite walkHullWith_segments, walkHull_walkAlong. simpl.
  destruct (h !! (length h - 1)%nat) as [pn |] eqn:En; [| done]. simpl.
  assert (Hn : pn ∈ h) by (by eapply list_elem_of_lookup_2).
  assert (Hst : Forall (onHull h) [lineBetween p0 p1]).
  { constructor; [by apply onHull_lineBetween | done]. }
  rewrite (foldl_walkSegmentWith h ([], lineBetween p0 p1)) by done.
  rewrite closeHullWith_closeHull; [done | |].
  - pose proof (onHull_walkAlong_any h ([], lineBetween p0 p1) (fun p Hp => Hp) Hst)
      as Hon.
    rewrite Forall_app, Forall_singleton in Hon. apply Hon.
  - by apply onHull_lineBetween.
Qed.

Lemma buildPolygonWith_buildPolygon :
  buildPolygonWith collinear h = buildPolygon h.
Proof.
  unfold buildPolygonWith, buildPolygon. rewrite collapseHullWith_collapseHull.
  destruct (collapseHull h) as [edges |] eqn:E; [| done]. simpl.
  apply mergeFirstAndLastWith_mergeFirstAndLast. by apply collapseHull_onHull.
Qed.

End WalkWithFacts.

(** On a hull of small points the engine builds the polygon that exact
    arithmetic gives. *)
Lemma buildPolygonDouble_small (h : list Point) :
  Forall smallPoint h -> buildPolygonDouble h = buildPolygon h.
Proof.
  intros Hs. apply buildPolygonWith_buildPolygon.
  rewrite Forall_forall in Hs.
  intros l1 l2 [? ?] [? ?]. apply checkIfCollinearDouble_small; by apply Hs.
Qed.

(** * Properties in double arithmetic *)

(** C7, as stated, fails.  The test does not answer [true] exactly on a
    zero cross product: for the lines from [(0, 0)] to
    [(134217729, 134217728)] and from [(0, 0)] to [(134217728, 134217727)]
    the cross product is [-1], the first product [2^54 - 1] is rounded to
    [2^54], which the second product is, and the test answers [true]. *)
Lemma checkIfCollinearDouble_not_exact :
  ~ forall x1 y1 x2 y2 x3 y3 x4 y4 : Z,
      checkIfCollinearDouble (PhaserLine x1 y1 x2 y2) (PhaserLine x3 y3 x4 y4) = true
      <-> (x2 - x1) * (y4 - y3) - (y2 - y1) * (x4 - x3) = 0.
Proof.
  intros H.
  destruct (H 0 0 134217729 134217728 0 0 134217728 134217727) as [H1 _].
  specialize (H1 eq_refl). vm_compute in H1. discriminate.
Qed.

(** C7, amended.  For coordinates that are integers which doubles hold
    (magnitude at most [2^53]) and direction vectors [(dx1, dy1)] and
    [(dx2, dy2)] whose products [dx1 * dy2] and [dy1 * dx2] are below
    [2^53] in magnitude, the test in double arithmetic
    ([checkIfCollinearDouble]) answers [true] exactly when
    [dx1 * dy2 - dy1 * dx2] is [0]; no tolerance is applied. *)
Theorem checkIfCollinearDouble_exact (x1 y1 x2 y2 x3 y3 x4 y4 : Z) :
  Forall (fun c => Z.abs c <= 2 ^ 53) [x1; y1; x2; y2; x3; y3; x4; y4] ->
  Z.abs ((x2 - x1) * (y4 - y3)) < 2 ^ 53 ->
  Z.abs ((y2 - y1) * (x4 - x3)) < 2 ^ 53 ->
  (checkIfCollinearDouble (PhaserLine x1 y1 x2 y2) (PhaserLine x3 y3 x4 y4) = true
   <-> (x2 - x1) * (y4 - y3) - (y2 - y1) * (x4 - x3) = 0).
Proof.
  intros Hc Hp1 Hp2.
  rewrite checkIfCollinearDouble_checkIfCollinear by done.
  unfold checkIfCollinear. simpl. apply Z.eqb_eq.
Qed.

Lemma checkIfCollinearDouble_exact_witness :
  (Forall (fun c => Z.abs c <= 2 ^ 53) [0; 0; 2; 4; 1; 1; 4; 7] /\
   Z.abs ((2 - 0) * (7 - 1)) < 2 ^ 53 /\
   Z.abs ((4 - 0) * (4 - 1)) < 2 ^ 53) /\
  (checkIfCollinearDouble (PhaserLine 0 0 2 4) (PhaserLine 1 1 4 7) = true
   <-> (2 - 0) * (7 - 1) - (4 - 0) * (4 - 1) = 0).
Proof.
  assert (H1 : Forall (fun c => Z.abs c <= 2 ^ 53) [0; 0; 2; 4; 1; 1; 4; 7]).
  { repeat (constructor; [simpl; lia |]). constructor. }
  assert (H2 : Z.abs ((2 - 0) * (7 - 1)) < 2 ^ 53) by lia.
  assert (H3 : Z.abs ((4 - 0) * (4 - 1)) < 2 ^ 53) by lia.
  split; [by repeat split |].
  exact (checkIfCollinearDouble_exact 0 0 2 4 1 1 4 7 H1 H2 H3).
Defined.

(** X10. On a hull whose coordinates are integers of magnitude at most
    [2^25], a point that lies on the straight stretch between the point
    before it and the point after it, strictly between the two, leaves no
    trace: the polygon is the polygon of the hull without that point.  (The
    point is neither the first nor the last point of the hull.) *)
Theorem point_inside_a_stretch_is_dropped (pre post : list Point)
    (a m b : Point) :
  Forall smallPoint (pre ++ a :: m :: b :: post) ->
  between a m b ->
  buildPolygonDouble (pre ++ a :: m :: b :: post) =
  buildPolygonDouble (pre ++ a :: b :: post).
Proof.
  intros Hs Hb.
  assert (Hs' : Forall smallPoint (pre ++ a :: b :: post)).
  { rewrite Forall_app, !Forall_cons in Hs. rewrite Forall_app, !Forall_cons.
    tauto. }
  rewrite !buildPolygonDouble_small by done.
  unfold buildPolygon. by rewrite collapseHull_between.
Qed.

Lemma point_inside_a_stretch_is_dropped_witness :
  (Forall smallPoint ([(0, 0)] ++ (2, 0) :: (2, 1) :: (2, 2) :: [(0, 2)]) /\
   between (2, 0) (2, 1) (2, 2)) /\
  buildPolygonDouble ([(0, 0)] ++ (2, 0) :: (2, 1) :: (2, 2) :: [(0, 2)]) =
  buildPolygonDouble ([(0, 0)] ++ (2, 0) :: (2, 2) :: [(0, 2)]).
Proof.
  assert (H1 : Forall smallPoint
                 ([(0, 0)] ++ (2, 0) :: (2, 1) :: (2, 2) :: [(0, 2)])).
  { repeat (constructor; [split; simpl; lia |]). constructor. }
  assert (H2 : between (2, 0) (2, 1) (2, 2)) by (split; reflexivity).
  split; [by split |].
  exact (point_inside_a_stretch_is_dropped [(0, 0)] [(0, 2)] (2, 0) (2, 1) (2, 2)
           H1 H2).
Defined.

(** The bound is needed.  The third point of [longHull] lies between the
    second and the fourth, and the coordinates are below [2^31]; yet with
    that point there the rounded products make the first three segments
    one edge, and the polygon has three edges with the point and four
    without it. *)
Lemma rounding_changes_a_large_hull :
  between (164578515, 183386938) (411801001, 458862596) (906245973, 1009813912) /\
  length <$> buildPolygonDouble longHull = Some 3%nat /\
  length <$> buildPolygonDouble longHullWithout = Some 4%nat /\
  length <$> buildPolygon longHull = Some 4%nat.
Proof. repeat split; vm_compute; reflexivity. Qed.
